(** * Verification of the [version] package of tideland/golib

    Shallow embedding of [version.go] (New, Parse, Less, String, validID,
    less, numericLess, splitVersionString, parseNumberString) together with
    the few functions of the Go standard library the package calls
    ([strings.Split], [strings.SplitN], [strings.Join], [strconv.Atoi] and
    the [%d] verb of [fmt.Sprintf]).

    Conventions of the embedding:
    - a Go [string] is its sequence of bytes, [list ascii];
    - a Go [int] is a [Z] inside [minInt .. maxInt] (64-bit platforms);
    - a function returning [(T, error)] returns [result T]; an index that is
      out of range is the outcome [Panic], as in Go;
    - the interface [Version] has the one implementation [vsn], so that the
      methods called through the interface are the functions on [vsn].

    After the package [version] come the package [errors] it calls, the
    error codes of the package [scene] and the difference of two documents
    of the package [gjp]; what these take from outside (the runtime,
    [fmt.Sprintf], the documents) is a parameter of their embedding. *)

From Stdlib Require Import ZArith List Bool Ascii String Lia.
Import ListNotations.

Local Open Scope Z_scope.

(** ** Go values *)

Module Go.

(** A Go string: a read-only slice of bytes. *)
Definition gostring : Type := list ascii.

(** Literals are written [bytes "1.2.3"]. *)
Definition bytes (s : string) : gostring := list_ascii_of_string s.

(** Numeric value of a byte (and of the rune an ASCII byte decodes to). *)
Definition ord (c : ascii) : Z := Z.of_N (N_of_ascii c).

(** Bounds of [int] where [strconv.IntSize = 64]. *)
Definition maxInt : Z := 2 ^ 63 - 1.
Definition minInt : Z := - 2 ^ 63.
Definition isInt (n : Z) : Prop := minInt <= n <= maxInt.

(** String equality [a == b]. *)
Fixpoint streq (a b : gostring) : bool :=
  match a, b with
  | [], [] => true
  | x :: a', y :: b' => Ascii.eqb x y && streq a' b'
  | _, _ => false
  end.

(** String order [a < b]: bytewise lexicographic, a proper prefix first. *)
Fixpoint strlt (a b : gostring) : bool :=
  match a, b with
  | _, [] => false
  | [], _ :: _ => true
  | x :: a', y :: b' =>
      if ord x <? ord y then true
      else if ord y <? ord x then false
      else strlt a' b'
  end.

(** [a > b] is [b < a]. *)
Definition strgt (a b : gostring) : bool := strlt b a.

End Go.
Export Go.

(** ** The parts of the standard library the package uses *)

Module Strings.

(** [strings.Join(elems, sep)]. *)
Fixpoint Join (elems : list gostring) (sep : gostring) : gostring :=
  match elems with
  | [] => []
  | [e] => e
  | e :: rest => e ++ sep ++ Join rest sep
  end.

(** [strings.Split(s, sep)] for a one-byte separator: the substrings between
    the separators, in order; a string without separator gives [[s]]. *)
Fixpoint Split (s : gostring) (sep : ascii) : list gostring :=
  match s with
  | [] => [[]]
  | c :: s' =>
      if Ascii.eqb c sep then [] :: Split s' sep
      else match Split s' sep with
           | [] => [[c]]
           | h :: t => (c :: h) :: t
           end
  end.

(** [strings.Index(s, sep)] for a one-byte separator, as the pair of the
    text before the first separator and the text after it. *)
Fixpoint Cut (s : gostring) (sep : ascii) : option (gostring * gostring) :=
  match s with
  | [] => None
  | c :: s' =>
      if Ascii.eqb c sep then Some ([], s')
      else match Cut s' sep with
           | Some (before, after) => Some (c :: before, after)
           | None => None
           end
  end.

(** [strings.SplitN(s, sep, n)] for [n >= 0] and a one-byte separator: at
    most [n] substrings, the last one being the unsplit remainder. *)
Fixpoint SplitN (s : gostring) (sep : ascii) (n : nat) : list gostring :=
  match n with
  | O => []
  | S O => [s]
  | S n' =>
      match Cut s sep with
      | None => [s]
      | Some (before, after) => before :: SplitN after sep n'
      end
  end.

End Strings.

Module Strconv.

(** The two errors of [strconv]: [ErrSyntax] and [ErrRange]. *)
Inductive NumError : Type := ErrSyntax | ErrRange.

Definition isDigit (c : ascii) : bool := (48 <=? ord c) && (ord c <=? 57).

(** Value of a string of decimal digits, most significant first. *)
Fixpoint digitsValue (acc : Z) (s : gostring) : option Z :=
  match s with
  | [] => Some acc
  | c :: s' =>
      if isDigit c then digitsValue (10 * acc + (ord c - 48)) s' else None
  end.

(** [strconv.Atoi(s)]: an optional sign, then at least one decimal digit and
    nothing else; a value outside [int] is [ErrRange]. *)
Definition Atoi (s : gostring) : Z + NumError :=
  let '(neg, body) :=
    match s with
    | c :: s' =>
        if Ascii.eqb c "+" then (false, s')
        else if Ascii.eqb c "-" then (true, s')
        else (false, s)
    | [] => (false, s)
    end in
  match body with
  | [] => inr ErrSyntax
  | _ =>
      match digitsValue 0 body with
      | None => inr ErrSyntax
      | Some un =>
          let n := if neg then - un else un in
          if (minInt <=? n) && (n <=? maxInt) then inl n else inr ErrRange
      end
  end.

(** Digits of a non-negative number, least significant produced first and
    pushed in front of [acc]; [fuel] bounds the number of digits. *)
Fixpoint fmtDigits (fuel : nat) (n : Z) (acc : gostring) : gostring :=
  match fuel with
  | O => acc
  | S fuel' =>
      let acc' := ascii_of_N (Z.to_N (48 + n mod 10)) :: acc in
      if n <? 10 then acc' else fmtDigits fuel' (n / 10) acc'
  end.

(** [fmt.Sprintf("%d", n)]. *)
Definition Itoa (n : Z) : gostring :=
  if n <? 0
  then "-"%char :: fmtDigits (S (Z.to_nat (Z.log2 (- n)))) (- n) []
  else fmtDigits (S (Z.to_nat (Z.log2 n))) n [].

End Strconv.

(** ** The [errors] package, as far as [version] needs it *)

Module Errors.

(** An error value carries the code it was created with; [Annotate] also
    keeps the error it wraps. *)
Inductive error : Type :=
| New (code : Z)
| Annotate (cause : Strconv.NumError) (code : Z).

Definition Code (e : error) : Z :=
  match e with
  | New code => code
  | Annotate _ code => code
  end.

(** [errors.IsError(err, code)]. *)
Definition IsError (e : error) (code : Z) : bool := Code e =? code.

End Errors.

(** Outcome of a Go function returning [(T, error)]. *)
Inductive result (A : Type) : Type :=
| Ok (a : A)
| Err (e : Errors.error)
| Panic.

Arguments Ok {A} a.
Arguments Err {A} e.
Arguments Panic {A}.

Definition bind {A B : Type} (r : result A) (k : A -> result B) : result B :=
  match r with
  | Ok a => k a
  | Err e => Err e
  | Panic => Panic
  end.

Notation "x <- r ;; k" := (bind r (fun x => k))
  (at level 61, r at next level, right associativity).

(** ** Package [version] *)

Module Version.

Import Strings Strconv.

(** [const Metadata = "+"]. *)
Definition MetadataSep : ascii := "+".
Definition Metadata : gostring := [MetadataSep].

(** Modelled from the spec: the error code of the package, whose declaration
    ([ErrIllegalVersionFormat], with the message table) is in a file that is
    not part of the sources at hand; the spec calls it [IllegalFormat] and
    names it as the only kind of failure. *)
Definition ErrIllegalVersionFormat : Z := 1.

(** [type vsn struct]. *)
Record vsn : Type := mkVsn {
  major : Z;
  minor : Z;
  patch : Z;
  preRelease : list gostring;
  metadata : list gostring
}.

(** *** validID *)

(** State of the scanning loop of [validID]. *)
Record scan : Type := mkScan {
  out : gostring;
  letter : bool;
  digit : bool;
  hyphen : bool
}.

(** One turn of [for _, r := range id], the [switch] on the rune.

    The loop of the source ranges over the runes of [id], this one over its
    bytes. They keep the same characters: an ASCII byte is never consumed as
    part of a longer UTF-8 sequence (continuation bytes are [0x80]-[0xBF])
    and decodes to the rune of its own value; every other byte belongs to a
    rune above 127 or decodes to U+FFFD, and such a rune matches no case of
    the [switch], as the byte itself (above 127) matches none here. *)
Definition scanRune (st : scan) (r : ascii) : scan :=
  if (ord "a" <=? ord r) && (ord r <=? ord "z") then
    mkScan (out st ++ [r]) true (digit st) (hyphen st)
  else if (ord "A" <=? ord r) && (ord r <=? ord "Z") then
    mkScan (out st ++ [r]) true (digit st) (hyphen st)
  else if (ord "0" <=? ord r) && (ord r <=? ord "9") then
    mkScan (out st ++ [r]) (letter st) true (hyphen st)
  else if ord r =? ord "-" then
    mkScan (out st ++ [r]) (letter st) (digit st) true
  else st.

Fixpoint scanRunes (st : scan) (id : gostring) : scan :=
  match id with
  | [] => st
  | r :: id' => scanRunes (scanRune st r) id'
  end.

(** [for len(out) > 0 && out[0] == '0' { out = out[1:] }]. *)
Fixpoint removeLeadingZeros (o : gostring) : gostring :=
  match o with
  | c :: o' => if ord c =? ord "0" then removeLeadingZeros o' else o
  | [] => o
  end.

Definition validID (id : gostring) (numeric : bool) : gostring :=
  let st := scanRunes (mkScan [] false false false) id in
  if numeric && digit st && negb (letter st) && negb (hyphen st) then
    let o := removeLeadingZeros (out st) in
    if (List.length o =? 0)%nat then ["0"%char] else o
  else out st.

(** *** New *)

(** The loop of [New] over the variadic [prmds]. *)
Fixpoint NewLoop (isPR : bool) (v : vsn) (prmds : list gostring) : vsn :=
  match prmds with
  | [] => v
  | prmd :: rest =>
      if isPR then
        if streq prmd Metadata then NewLoop false v rest
        else
          NewLoop true
            (mkVsn (major v) (minor v) (patch v)
               (preRelease v ++ [validID prmd true]) (metadata v))
            rest
      else
        NewLoop false
          (mkVsn (major v) (minor v) (patch v)
             (preRelease v) (metadata v ++ [validID prmd false]))
          rest
  end.

Definition New (major minor patch : Z) (prmds : list gostring) : vsn :=
  let major := if major <? 0 then 0 else major in
  let minor := if minor <? 0 then 0 else minor in
  let patch := if patch <? 0 then 0 else patch in
  NewLoop true (mkVsn major minor patch [] []) prmds.

(** *** Accessors and rendering *)

Definition Major (v : vsn) : Z := major v.
Definition Minor (v : vsn) : Z := minor v.
Definition Patch (v : vsn) : Z := patch v.
Definition PreRelease (v : vsn) : gostring := Join (preRelease v) ["."%char].
(** The method [Metadata()]; the constant has the plain name. *)
Definition MetadataString (v : vsn) : gostring := Join (metadata v) ["."%char].

(** The method [String()]. *)
Definition String (v : vsn) : gostring :=
  let vs := Itoa (major v) ++ ["."%char] ++ Itoa (minor v)
            ++ ["."%char] ++ Itoa (patch v) in
  let vs := if (0 <? List.length (preRelease v))%nat
            then vs ++ ["-"%char] ++ PreRelease v else vs in
  let vs := if (0 <? List.length (metadata v))%nat
            then vs ++ Metadata ++ MetadataString v else vs in
  vs.

(** *** Comparison *)

Definition numericLess (a b : gostring) : bool * bool :=
  match Atoi a with
  | inr _ => (false, false)
  | inl an =>
      match Atoi b with
      | inr _ => (false, false)
      | inl bn => (an <? bn, true)
      end
  end.

(** The loop of [less]: [a] and [b] are the slices, [ai] and [bi] what is
    left of them from index [i] on. *)
Fixpoint lessLoop (a b ai bi : list gostring) : bool :=
  match ai, bi with
  | x :: ai', y :: bi' =>
      let '(nl, ok) := numericLess x y in
      if ok then nl
      else if strgt x y then false
      else if strlt x y then true
      else lessLoop a b ai' bi'
  | _, _ => if (List.length b <? List.length a)%nat then true else false
  end.

Definition less (a b : list gostring) : bool := lessLoop a b a b.

(** The method [Less]. *)
Definition Less (v cv : vsn) : bool :=
  if major v <? Major cv then true
  else if Major cv <? major v then false
  else if minor v <? Minor cv then true
  else if Minor cv <? minor v then false
  else if patch v <? Patch cv then true
  else if Patch cv <? patch v then false
  else
    let cvprs := PreRelease cv in
    let cvpr := if (0 <? List.length cvprs)%nat then Split cvprs "." else [] in
    less (preRelease v) cvpr.

(** *** Parsing *)

Definition splitVersionString (vsnstr : gostring) : result (list gostring) :=
  match SplitN vsnstr MetadataSep 2 with
  | [np] =>
      match SplitN np "-" 2 with
      | [n] => Ok [n; []; []]
      | [n; p] => Ok [n; p; []]
      | _ => Err (Errors.New ErrIllegalVersionFormat)
      end
  | [np; m] =>
      match SplitN np "-" 2 with
      | [n] => Ok [n; []; m]
      | [n; p] => Ok [n; p; m]
      | _ => Err (Errors.New ErrIllegalVersionFormat)
      end
  | _ => Err (Errors.New ErrIllegalVersionFormat)
  end.

(** [vsn[i] = num]; an index out of range panics. *)
Fixpoint setIndex (l : list Z) (i : nat) (x : Z) : result (list Z) :=
  match l, i with
  | [], _ => Panic
  | _ :: l', O => Ok (x :: l')
  | y :: l', S i' => l'' <- setIndex l' i' x ;; Ok (y :: l'')
  end.

(** The loop [for i, nstr := range nstrs] of [parseNumberString]. *)
Fixpoint parseNumberLoop (i : nat) (nstrs : list gostring) (vsn : list Z)
  : result (list Z) :=
  match nstrs with
  | [] => Ok vsn
  | nstr :: rest =>
      match Atoi nstr with
      | inr err => Err (Errors.Annotate err ErrIllegalVersionFormat)
      | inl num =>
          if num <? 0 then Err (Errors.New ErrIllegalVersionFormat)
          else vsn' <- setIndex vsn i num ;; parseNumberLoop (S i) rest vsn'
      end
  end.

Definition parseNumberString (nstr : gostring) : result (list Z) :=
  let nstrs := Split nstr "." in
  if (List.length nstrs <? 1)%nat || (3 <? List.length nstrs)%nat then
    Err (Errors.New ErrIllegalVersionFormat)
  else parseNumberLoop 0 nstrs [1; 0; 0].

Definition Parse (vsnstr : gostring) : result vsn :=
  npmstrs <- splitVersionString vsnstr ;;
  match npmstrs with
  | [s0; s1; s2] =>
      nums <- parseNumberString s0 ;;
      let prmds := if negb (streq s1 []) then Split s1 "." else [] in
      let prmds := if negb (streq s2 [])
                   then (prmds ++ [Metadata]) ++ Split s2 "."
                   else prmds in
      match nums with
      | [n0; n1; n2] => Ok (New n0 n1 n2 prmds)
      | _ => Panic
      end
  | _ => Panic
  end.

End Version.

(** ** Notions of the specification *)

Module Spec.

Import Strings Strconv Version.

(** ASCII letters [a]-[z] and [A]-[Z]. *)
Definition isLetter (c : ascii) : bool :=
  ((97 <=? ord c) && (ord c <=? 122)) || ((65 <=? ord c) && (ord c <=? 90)).

Definition isHyphen (c : ascii) : bool := ord c =? 45.

(** The alphabet of identifiers: ASCII letters, digits and the hyphen. *)
Definition permitted (c : ascii) : bool :=
  isLetter c || isDigit c || isHyphen c.

(** The character of a decimal digit. *)
Definition digitChar (d : Z) : ascii := ascii_of_N (Z.to_N (48 + d)).

(** The number part of a rendered version: [major.minor.patch]. *)
Definition numbers (v : vsn) : gostring :=
  Itoa (major v) ++ ["."%char] ++ Itoa (minor v)
    ++ ["."%char] ++ Itoa (patch v).

(** An identifier made of permitted characters only. *)
Definition wellFormedID (s : gostring) : Prop :=
  Forall (fun c => permitted c = true) s.

Fixpoint dropWhile {A : Type} (p : A -> bool) (l : list A) : list A :=
  match l with
  | x :: l' => if p x then dropWhile p l' else l
  | [] => []
  end.

Fixpoint takeWhile {A : Type} (p : A -> bool) (l : list A) : list A :=
  match l with
  | x :: l' => if p x then x :: takeWhile p l' else []
  | [] => []
  end.

(** Leading ['0'] characters stripped, but never down to the empty string. *)
Definition stripLeadingZeros (s : gostring) : gostring :=
  match dropWhile (Ascii.eqb "0") s with
  | [] => ["0"%char]
  | r => r
  end.

(** The sanitizer in the words of the specification: keep the permitted
    characters in order; in numeric mode a token of digits only (and at least
    one) loses its leading zeros. *)
Definition sanitize (token : gostring) (numericMode : bool) : gostring :=
  let kept := filter permitted token in
  if numericMode && forallb isDigit kept && (0 <? List.length kept)%nat
  then stripLeadingZeros kept
  else kept.

(** The identifier parses as an integer. *)
Definition isNumeric (s : gostring) : bool :=
  match Atoi s with
  | inl _ => true
  | inr _ => false
  end.


(** The text before the first [sep], the whole text when there is none. *)
Definition before (sep : ascii) (s : gostring) : gostring :=
  takeWhile (fun c => negb (Ascii.eqb c sep)) s.

(** The numeric segment of a raw version string: the part before the first
    ["-"] of the part before the first ["+"]. *)
Definition numericSegment (raw : gostring) : gostring :=
  before "-" (before "+" raw).

(** A component of the numeric segment that is no non-negative integer: it
    fails integer parsing, or parses to a negative integer. *)
Definition badComponent (c : gostring) : Prop :=
  match Atoi c with
  | inr _ => True
  | inl n => n < 0
  end.

(** The condition under which parsing is specified to fail. *)
Definition illegalFormat (raw : gostring) : Prop :=
  let comps := Split (numericSegment raw) "." in
  (3 < List.length comps)%nat \/ Exists badComponent comps.

(** The raw tokens of [New] before the first marker, and those after it. *)
Definition prTokens (prmds : list gostring) : list gostring :=
  takeWhile (fun t => negb (streq t Metadata)) prmds.

Definition mdTokens (prmds : list gostring) : list gostring :=
  tl (dropWhile (fun t => negb (streq t Metadata)) prmds).

(** A version value that [New] returns for some arguments of type [int]. *)
Definition constructed (v : vsn) : Prop :=
  exists ma mi pa prmds,
    isInt ma /\ isInt mi /\ isInt pa /\ v = New ma mi pa prmds.

(** Same content in all five fields. *)
Definition sameContent (v w : vsn) : Prop :=
  major v = major w /\ minor v = minor w /\ patch v = patch w /\
  preRelease v = preRelease w /\ metadata v = metadata w.

End Spec.

(** ** Package [errors], in full *)

(** Outcome of a call that returns a value or panics. *)
Inductive outcome (A : Type) : Type :=
| Done (a : A)
| Panics.

Arguments Done {A} a.
Arguments Panics {A}.

Definition andThen {A B : Type} (o : outcome A) (k : A -> outcome B)
  : outcome B :=
  match o with
  | Done a => k a
  | Panics => Panics
  end.

Notation "x <~ o ;; k" := (andThen o (fun x => k))
  (at level 61, o at next level, right associativity).

Module ErrorsPkg.

Import Strings.

(** [type callInfo struct]. *)
Record callInfo : Type := mkCallInfo {
  packageName : gostring;
  packagePart : gostring;
  fileName : gostring;
  funcName : gostring;
  line : Z
}.

(** A value of the interface type [error]: the nil interface, an
    [*errorBox], an [*errorCollection], or an error of another type (of
    which only the message is kept). *)
#[warnings="-register-all"]
Inductive error : Type :=
| nilError
| errorBox (err : error) (code : Z) (msg : gostring) (info : callInfo)
| errorCollection (errs : list error)
| otherError (text : gostring).

(** The values passed as [args ...interface{}] in this package. *)
Inductive arg : Type :=
| argInt (n : Z)
| argString (s : gostring)
| argError (e : error).

(** [type Messages map[int]string]; [None] is the nil map. *)
Definition Messages : Type := option (list (Z * gostring)).

Fixpoint lookup (l : list (Z * gostring)) (code : Z) : gostring :=
  match l with
  | [] => []
  | (k, v) :: l' => if k =? code then v else lookup l' code
  end.

(** [m[code]]: the empty string for a missing key and for the nil map. *)
Definition messageAt (m : Messages) (code : Z) : gostring :=
  match m with
  | None => []
  | Some l => lookup l code
  end.

(** [ErrInvalidErrorType = iota + 1] and the two constants after it. *)
Definition ErrInvalidErrorType : Z := 1.
Definition ErrNotYetImplemented : Z := 2.
Definition ErrDeprecated : Z := 3.

Definition errorMessages : Messages :=
  Some [(ErrInvalidErrorType, bytes "invalid error type: %T %q");
        (ErrNotYetImplemented, bytes "feature is not yet implemented: %q");
        (ErrDeprecated, bytes "feature is deprecated: %q")].

(** What the runtime reports for the frame an error is created for:
    the file and line of [runtime.Caller(3)] and the name of
    [runtime.FuncForPC(pc)]. *)
Record frame : Type := mkFrame {
  file : gostring;
  frameLine : Z;
  name : gostring
}.

(** [l[i]] for an [int] index; out of range panics. *)
Definition at_ {A : Type} (l : list A) (i : Z) : outcome A :=
  if i <? 0 then Panics
  else match nth_error l (Z.to_nat i) with
       | Some x => Done x
       | None => Panics
       end.

(** [l[0:hi]]; [hi] out of range panics. *)
Definition upTo {A : Type} (l : list A) (hi : Z) : outcome (list A) :=
  if (hi <? 0) || (Z.of_nat (List.length l) <? hi) then Panics
  else Done (firstn (Z.to_nat hi) l).

Section Runtime.

(** [fmt.Sprintf] and [strings.ToUpper] are taken as they come. *)
Variable Sprintf : gostring -> list arg -> gostring.
Variable ToUpper : gostring -> gostring.

(** The method [Format] of [Messages]. *)
Definition Format (m : Messages) (code : Z) (args : list arg) : gostring :=
  if (match m with None => true | Some _ => false end)
     || streq (messageAt m code) []
  then
    match args with
    | [] => Sprintf (bytes "[ERRORS:999] invalid error code '%d'") [argInt code]
    | a0 :: rest => let format := Sprintf (bytes "%v") [a0] in
                    Sprintf format rest
    end
  else
    let format := messageAt m code in
    Sprintf format args.

Definition retrieveCallInfo (caller : frame) : outcome callInfo :=
  let fileName := last (Split (file caller) "/") [] in
  let parts := Split (name caller) "." in
  let pl := Z.of_nat (List.length parts) in
  funcName <~ at_ parts (pl - 1) ;;
  q <~ at_ parts (pl - 2) ;;
  q0 <~ at_ q 0 ;;
  names <~ (if ord q0 =? ord "("
            then pre <~ upTo parts (pl - 2) ;;
                 Done (q ++ ["."%char] ++ funcName, Join pre ["."%char])
            else pre <~ upTo parts (pl - 1) ;;
                 Done (funcName, Join pre ["."%char])) ;;
  let '(funcName, packageName) := names in
  let packageParts := Split packageName "/" in
  part <~ at_ packageParts (Z.of_nat (List.length packageParts) - 1) ;;
  let packagePart := ToUpper part in
  Done (mkCallInfo packageName packagePart fileName funcName
          (frameLine caller)).

Definition newErrorBox (caller : frame) (err : error) (code : Z)
  (msgs : Messages) (args : list arg) : outcome error :=
  let msg := Format msgs code args in
  info <~ retrieveCallInfo caller ;;
  Done (errorBox err code msg info).

Definition Annotate (caller : frame) (err : error) (code : Z)
  (msgs : Messages) (args : list arg) : outcome error :=
  newErrorBox caller err code msgs args.

Definition New (caller : frame) (code : Z) (msgs : Messages)
  (args : list arg) : outcome error :=
  newErrorBox caller nilError code msgs args.

Definition Collect (errs : list error) : error := errorCollection errs.

Definition Valid (err : error) : bool :=
  match err with
  | errorBox _ _ _ _ => true
  | _ => false
  end.

Definition IsError (err : error) (code : Z) : bool :=
  match err with
  | errorBox _ c _ _ => c =? code
  | _ => false
  end.

(** [Annotated]; [caller] is what the runtime reports when the function has
    to create the invalid-type error. *)
Definition Annotated (caller : frame) (err : error) : outcome error :=
  match err with
  | errorBox e _ _ _ => Done e
  | _ => New caller ErrInvalidErrorType errorMessages
           [argError err; argError err]
  end.

Definition Location (caller : frame) (err : error)
  : outcome (gostring * gostring * Z * error) :=
  match err with
  | errorBox _ _ _ info =>
      Done (packageName info, fileName info, line info, nilError)
  | _ =>
      e <~ New caller ErrInvalidErrorType errorMessages
             [argError err; argError err] ;;
      Done ([], [], 0, e)
  end.

Fixpoint Stack (err : error) : list error :=
  match err with
  | errorBox e _ _ _ => [err] ++ Stack e
  | _ => [err]
  end.

Definition All (err : error) : list error :=
  match err with
  | errorCollection errs => errs
  | _ => [err]
  end.

(** [DoAll]: the callback works on a state of type [S]. *)
Definition DoAll {S : Type} (err : error) (f : error -> S -> S) (s : S) : S :=
  match err with
  | errorBox _ _ _ _ => fold_left (fun s serr => f serr s) (Stack err) s
  | errorCollection _ => fold_left (fun s aerr => f aerr s) (All err) s
  | _ => f err s
  end.

Definition IsInvalidTypeError (err : error) : bool :=
  IsError err ErrInvalidErrorType.

Definition NotYetImplementedError (caller : frame) (feature : gostring)
  : outcome error :=
  New caller ErrNotYetImplemented errorMessages [argString feature].

Definition IsNotYetImplementedError (err : error) : bool :=
  IsError err ErrNotYetImplemented.

Definition DeprecatedError (caller : frame) (feature : gostring)
  : outcome error :=
  New caller ErrDeprecated errorMessages [argString feature].

Definition IsDeprecatedError (err : error) : bool :=
  IsError err ErrDeprecated.

End Runtime.

End ErrorsPkg.

(** ** Package [scene]: its error codes *)

Module Scene.

Import ErrorsPkg.

(** [ErrSceneEnded = iota + 1] and the five constants after it. *)
Definition ErrSceneEnded : Z := 1.
Definition ErrTimeout : Z := 2.
Definition ErrPropAlreadyExist : Z := 3.
Definition ErrPropNotFound : Z := 4.
Definition ErrCleanupFailed : Z := 5.
Definition ErrWaitedTooLong : Z := 6.

Definition errorMessages : Messages :=
  Some [(ErrSceneEnded, bytes "scene already ended");
        (ErrTimeout, bytes "scene %s timeout reached at %v");
        (ErrPropAlreadyExist, bytes "property %q already exist");
        (ErrPropNotFound, bytes "property %q does not exist");
        (ErrCleanupFailed, bytes "cleanup of property %q failed");
        (ErrWaitedTooLong, bytes "waiting for signal %q timed out")].

Definition IsSceneEndedError (err : error) : bool :=
  IsError err ErrSceneEnded.
Definition IsTimeoutError (err : error) : bool :=
  IsError err ErrTimeout.
Definition IsPropAlreadyExistError (err : error) : bool :=
  IsError err ErrPropAlreadyExist.
Definition IsPropNotFoundError (err : error) : bool :=
  IsError err ErrPropNotFound.
Definition IsCleanupFailedError (err : error) : bool :=
  IsError err ErrCleanupFailed.
Definition IsWaitedTooLongError (err : error) : bool :=
  IsError err ErrWaitedTooLong.

End Scene.

(** ** Package [gjp]: the difference of two documents *)

Module Gjp.

Section Documents.

(** The interfaces [Document] and [Value], the parser and the error values
    are declared in files that are not at hand; they are taken as they
    come. [Process d] stands for [d.Process(processor)] with a processor
    that never fails, as the two of [compare] are: the paths and values the
    document hands to the processor, in order, and the error (or nil, [None])
    the call returns. *)
Variables Document Value Failure : Type.
Variable ValueAt : Document -> gostring -> Value.
Variable Equals : Value -> Value -> bool.
Variable Process : Document -> list (gostring * Value) * option Failure.
Variable Parse : gostring -> gostring -> Document + Failure.

(** [type diff struct]. *)
Record diff : Type := mkDiff {
  first : Document;
  second : Document;
  paths : list gostring
}.

(** The set [firstPaths]. *)
Definition seen (firstPaths : list gostring) (path : gostring) : bool :=
  existsb (streq path) firstPaths.

(** The closure [firstProcessor], on the state it changes: the set
    [firstPaths] and the slice [d.paths]. *)
Definition firstProcessor (d : diff)
  (st : list gostring * list gostring) (pv : gostring * Value)
  : list gostring * list gostring :=
  let '(firstPaths, dpaths) := st in
  let '(path, value) := pv in
  let firstPaths := path :: firstPaths in
  if negb (Equals value (ValueAt (second d) path))
  then (firstPaths, dpaths ++ [path])
  else (firstPaths, dpaths).

(** The closure [secondProcessor], on [d.paths]. *)
Definition secondProcessor (firstPaths : list gostring)
  (dpaths : list gostring) (pv : gostring * Value) : list gostring :=
  let '(path, _) := pv in
  if seen firstPaths path then dpaths else dpaths ++ [path].

(** The method [compare]: the difference after the call, and the error. *)
Definition compare (d : diff) : diff * option Failure :=
  let '(visited1, err) := Process (first d) in
  let '(firstPaths, dpaths) :=
    fold_left (firstProcessor d) visited1 ([], paths d) in
  match err with
  | Some e => (mkDiff (first d) (second d) dpaths, Some e)
  | None =>
      let '(visited2, err) := Process (second d) in
      let dpaths := fold_left (secondProcessor firstPaths) visited2 dpaths in
      (mkDiff (first d) (second d) dpaths, err)
  end.

(** [Compare]: the difference or the error. *)
Definition Compare (firstDoc secondDoc : gostring) (separator : gostring)
  : diff + Failure :=
  match Parse firstDoc separator with
  | inr err => inr err
  | inl fd =>
      match Parse secondDoc separator with
      | inr err => inr err
      | inl sd =>
          let d := mkDiff fd sd [] in
          match compare d with
          | (_, Some err) => inr err
          | (d, None) => inl d
          end
      end
  end.

Definition FirstDocument (d : diff) : Document := first d.
Definition SecondDocument (d : diff) : Document := second d.
Definition Differences (d : diff) : list gostring := paths d.
Definition DifferenceAt (d : diff) (path : gostring) : Value * Value :=
  let firstValue := ValueAt (first d) path in
  let secondValue := ValueAt (second d) path in
  (firstValue, secondValue).

End Documents.

Arguments mkDiff {Document} first second paths.
Arguments first {Document} d.
Arguments second {Document} d.
Arguments paths {Document} d.
Arguments firstProcessor {Document Value} ValueAt Equals d st pv.
Arguments secondProcessor {Value} firstPaths dpaths pv.
Arguments compare {Document Value Failure} ValueAt Equals Process d.
Arguments Compare {Document Value Failure} ValueAt Equals Process Parse
  firstDoc secondDoc separator.
Arguments FirstDocument {Document} d.
Arguments SecondDocument {Document} d.
Arguments Differences {Document} d.
Arguments DifferenceAt {Document Value} ValueAt d path.

End Gjp.

(** A small model of documents, for examples: a document is the list of
    its paths with their numbers, a value is a number or nothing. *)
Module GjpExample.

Definition Document : Type := list (gostring * Z).
Definition Value : Type := option Z.

Fixpoint ValueAt (d : Document) (path : gostring) : Value :=
  match d with
  | [] => None
  | (p, v) :: d' => if streq p path then Some v else ValueAt d' path
  end.

Definition Equals (v w : Value) : bool :=
  match v, w with
  | Some x, Some y => x =? y
  | None, None => true
  | _, _ => false
  end.

Definition Process (d : Document) : list (gostring * Value) * option unit :=
  (map (fun pv => (fst pv, Some (snd pv))) d, None).

Definition Parse (text separator : gostring) : Document + unit :=
  match text with
  | [] => inr tt
  | _ => inl [(text, 1)]
  end.

End GjpExample.

(** ** Further notions on versions *)

Module Notions.

Import Strings Strconv Version Spec.

(** The number triple of [a] comes before the one of [b]: the order on
    major, then minor, then patch. *)
Definition tripleLt (a b : vsn) : Prop :=
  major a < major b \/
  (major a = major b /\
   (minor a < minor b \/ (minor a = minor b /\ patch a < patch b))).

(** A non-empty string of decimal digits whose value fits an [int]. *)
Definition isDecimal (s : gostring) : bool :=
  match s with
  | [] => false
  | _ =>
      forallb isDigit s &&
      match digitsValue 0 s with
      | Some n => n <=? maxInt
      | None => false
      end
  end.

(** The raw tokens [Parse] hands to [New] for a pre-release segment [p] and
    a metadata segment [m]. *)
Definition segmentTokens (p : gostring) : list gostring :=
  match p with
  | [] => []
  | _ => Split p "."
  end.

End Notions.

(** * Properties *)

(** ** Bytes and strings *)

Section Bytes.

Lemma ord_inj (x y : ascii) : ord x = ord y -> x = y.
Proof.
  unfold ord. intros H. apply N2Z.inj in H.
  rewrite <- (ascii_N_embedding x), <- (ascii_N_embedding y).
  now rewrite H.
Qed.

Lemma ord_range (c : ascii) : 0 <= ord c < 256.
Proof.
  unfold ord. pose proof (N_ascii_bounded c). lia.
Qed.

Lemma ord_eqb (x y : ascii) : Ascii.eqb x y = (ord x =? ord y).
Proof.
  destruct (Ascii.eqb_spec x y) as [->|N].
  - now rewrite Z.eqb_refl.
  - symmetry. apply Z.eqb_neq. intros E. now apply N, ord_inj.
Qed.

Lemma streq_true (a b : gostring) : streq a b = true <-> a = b.
Proof.
  revert b. induction a as [|x a IH]; intros [|y b]; simpl; try easy.
  rewrite andb_true_iff, Ascii.eqb_eq, IH. split.
  - now intros [-> ->].
  - intros E. now inversion E.
Qed.

Lemma streq_refl (a : gostring) : streq a a = true.
Proof. now apply streq_true. Qed.

Lemma streq_nil (a : gostring) : streq a [] = true <-> a = [].
Proof. apply streq_true. Qed.

Lemma strlt_irrefl (a : gostring) : strlt a a = false.
Proof.
  induction a as [|x a IH]; simpl; [easy|].
  now rewrite Z.ltb_irrefl.
Qed.




End Bytes.

(** ** The sanitizer *)

Module ValidID.

Import Strings Strconv Version Spec.

Ltac ord_consts :=
  change (ord "a") with 97 in *; change (ord "z") with 122 in *;
  change (ord "A") with 65 in *; change (ord "Z") with 90 in *;
  change (ord "0") with 48 in *; change (ord "9") with 57 in *;
  change (ord "-") with 45 in *; change (ord ".") with 46 in *;
  change (ord "+") with 43 in *.

Ltac ord_cases c :=
  unfold permitted, isLetter, isDigit, isHyphen in *; ord_consts;
  repeat match goal with
    | |- context [?a <=? ?b] => destruct (Z.leb_spec a b)
    | |- context [?a =? ?b] => destruct (Z.eqb_spec a b)
    | H : context [?a <=? ?b] |- _ => destruct (Z.leb_spec a b)
    | H : context [?a =? ?b] |- _ => destruct (Z.eqb_spec a b)
    end;
  simpl in *; try reflexivity; try discriminate; try lia.

(** The three classes of permitted characters exclude each other. *)
Lemma classes_disjoint (c : ascii) :
  permitted c = true ->
  isDigit c = negb (isLetter c) && negb (isHyphen c).
Proof. ord_cases c. Qed.

(** One turn of the loop keeps the rune when it is permitted and raises the
    flag of its class. *)
Lemma scanRune_eq (st : scan) (r : ascii) :
  scanRune st r =
  mkScan (if permitted r then out st ++ [r] else out st)
         (letter st || isLetter r) (digit st || isDigit r)
         (hyphen st || isHyphen r).
Proof.
  destruct st as [o l d h]. unfold scanRune. simpl.
  ord_cases r; now rewrite ?orb_true_r, ?orb_false_r.
Qed.

Lemma scanRunes_eq (id : gostring) (st : scan) :
  scanRunes st id =
  mkScan (out st ++ filter permitted id)
         (letter st || existsb isLetter id) (digit st || existsb isDigit id)
         (hyphen st || existsb isHyphen id).
Proof.
  revert st. induction id as [|r id IH]; intros st; simpl.
  - destruct st. simpl. now rewrite app_nil_r, !orb_false_r.
  - rewrite IH, scanRune_eq. simpl. rewrite !orb_assoc. f_equal.
    destruct (permitted r); [|reflexivity].
    now rewrite <- app_assoc.
Qed.

Lemma filter_permitted_wf (id : gostring) : wellFormedID (filter permitted id).
Proof.
  unfold wellFormedID. apply Forall_forall. intros c Hc.
  now apply filter_In in Hc.
Qed.

Lemma existsb_filter_permitted (p : ascii -> bool) (id : gostring) :
  (forall c, p c = true -> permitted c = true) ->
  existsb p (filter permitted id) = existsb p id.
Proof.
  intros Hp. induction id as [|c id IH]; simpl; [reflexivity|].
  destruct (permitted c) eqn:E; simpl; rewrite IH; [reflexivity|].
  destruct (p c) eqn:Ep; [|reflexivity].
  apply Hp in Ep. congruence.
Qed.

(** On a kept string, "no letter and no hyphen" says "digits only". *)
Lemma no_letter_no_hyphen (k : gostring) :
  wellFormedID k ->
  negb (existsb isLetter k) && negb (existsb isHyphen k) = forallb isDigit k.
Proof.
  induction 1 as [|c k Hc Hk IH]; simpl; [reflexivity|].
  rewrite <- IH, (classes_disjoint c Hc).
  destruct (isLetter c), (isHyphen c), (existsb isLetter k),
    (existsb isHyphen k); reflexivity.
Qed.

Lemma digits_only_some_digit (k : gostring) :
  existsb isDigit k && forallb isDigit k
  = forallb isDigit k && (0 <? List.length k)%nat.
Proof.
  destruct k as [|c k]; simpl; [reflexivity|].
  destruct (isDigit c); simpl; [now rewrite andb_true_r|].
  apply andb_false_r.
Qed.

(** The flag test of [validID] on a kept string: digits only, and at least
    one. *)
Lemma flags_digits_only (k : gostring) :
  wellFormedID k ->
  existsb isDigit k && negb (existsb isLetter k) && negb (existsb isHyphen k)
  = forallb isDigit k && (0 <? List.length k)%nat.
Proof.
  intros Hk. rewrite <- andb_assoc, (no_letter_no_hyphen k Hk).
  apply digits_only_some_digit.
Qed.

Lemma removeLeadingZeros_eq (o : gostring) :
  removeLeadingZeros o = dropWhile (Ascii.eqb "0") o.
Proof.
  induction o as [|c o IH]; [reflexivity|].
  cbn [removeLeadingZeros dropWhile].
  rewrite ord_eqb, Z.eqb_sym. now rewrite IH.
Qed.

(** [validID] computes the sanitizer of the specification. *)
Lemma validID_sanitize (id : gostring) (numeric : bool) :
  validID id numeric = sanitize id numeric.
Proof.
  unfold validID, sanitize. rewrite scanRunes_eq. simpl.
  set (k := filter permitted id).
  assert (Hk : wellFormedID k) by apply filter_permitted_wf.
  rewrite <- !(existsb_filter_permitted _ id); fold k.
  - rewrite <- !andb_assoc.
    rewrite (andb_assoc (existsb isDigit k)), (flags_digits_only k Hk).
    rewrite removeLeadingZeros_eq. unfold stripLeadingZeros.
    destruct (numeric && (forallb isDigit k && (0 <? List.length k)%nat));
      [|reflexivity].
    now destruct (dropWhile (Ascii.eqb "0") k).
  - intros c. ord_cases c.
  - intros c. ord_cases c.
  - intros c. ord_cases c.
Qed.

End ValidID.

(** ** Splitting and joining *)

Module StringsFacts.

Import Strings Spec.

Lemma Split_not_nil (s : gostring) (sep : ascii) : Split s sep <> [].
Proof.
  destruct s as [|c s]; simpl; [easy|].
  destruct (Ascii.eqb c sep); [easy|]. now destruct (Split s sep).
Qed.

Lemma Split_no_sep (s : gostring) (sep : ascii) :
  ~ In sep s -> Split s sep = [s].
Proof.
  induction s as [|c s IH]; simpl; intros H; [reflexivity|].
  destruct (Ascii.eqb_spec c sep) as [->|N]; [tauto|].
  rewrite IH; tauto.
Qed.

Lemma Split_app (a b : gostring) (sep : ascii) :
  ~ In sep a -> Split (a ++ sep :: b) sep = a :: Split b sep.
Proof.
  induction a as [|c a IH]; simpl; intros H.
  - now rewrite Ascii.eqb_refl.
  - destruct (Ascii.eqb_spec c sep) as [->|N]; [tauto|].
    rewrite IH; tauto.
Qed.

(** Splitting what was joined gives the elements back, when no element
    holds the separator and there is at least one element. *)
Lemma Split_Join (l : list gostring) (sep : ascii) :
  l <> [] -> Forall (fun e => ~ In sep e) l ->
  Split (Join l [sep]) sep = l.
Proof.
  induction l as [|e l IH]; [easy|]. intros _ H.
  inversion H as [|? ? He Hl]; subst.
  destruct l as [|e' l'].
  - simpl. now apply Split_no_sep.
  - change (Join (e :: e' :: l') [sep])
      with (e ++ sep :: Join (e' :: l') [sep]).
    rewrite Split_app by assumption. f_equal. now apply IH.
Qed.

(** Only the empty sequence and the sequence of one empty string join to
    the empty string. *)
Lemma Join_nil (l : list gostring) (sep : ascii) :
  Join l [sep] = [] -> l = [] \/ l = [[]].
Proof.
  destruct l as [|e [|e' l']]; simpl; intros H; auto.
  - right. now subst.
  - now destruct e.
Qed.

Lemma In_Join (l : list gostring) (sep c : ascii) :
  In c (Join l [sep]) -> c = sep \/ exists e, In e l /\ In c e.
Proof.
  induction l as [|e l IH]; [easy|].
  destruct l as [|e' l'].
  - simpl. intros H. right. exists e. auto.
  - change (Join (e :: e' :: l') [sep])
      with (e ++ sep :: Join (e' :: l') [sep]).
    rewrite in_app_iff. intros [H|[H|H]].
    + right. exists e. simpl. auto.
    + now left.
    + destruct (IH H) as [->|[x [Hx Hc]]]; [now left|].
      right. exists x. split; [now right|assumption].
Qed.

Lemma Cut_no_sep (s : gostring) (sep : ascii) :
  ~ In sep s -> Cut s sep = None.
Proof.
  induction s as [|c s IH]; simpl; intros H; [reflexivity|].
  destruct (Ascii.eqb_spec c sep) as [->|N]; [tauto|].
  rewrite IH; tauto.
Qed.

Lemma Cut_app (a b : gostring) (sep : ascii) :
  ~ In sep a -> Cut (a ++ sep :: b) sep = Some (a, b).
Proof.
  induction a as [|c a IH]; simpl; intros H.
  - now rewrite Ascii.eqb_refl.
  - destruct (Ascii.eqb_spec c sep) as [->|N]; [tauto|].
    rewrite IH; tauto.
Qed.

(** The first piece of a cut is the text before the separator. *)
Lemma Cut_before (s : gostring) (sep : ascii) :
  match Cut s sep with
  | Some (b, _) => b = before sep s
  | None => s = before sep s
  end.
Proof.
  unfold before. induction s as [|c s IH]; simpl; [reflexivity|].
  destruct (Ascii.eqb c sep); simpl; [reflexivity|].
  destruct (Cut s sep) as [[b a]|]; now rewrite <- IH.
Qed.

Lemma SplitN_2 (s : gostring) (sep : ascii) :
  SplitN s sep 2 =
  match Cut s sep with
  | Some (b, a) => [b; a]
  | None => [s]
  end.
Proof. simpl. now destruct (Cut s sep) as [[b a]|]. Qed.

Lemma before_no_sep (s : gostring) (sep : ascii) : ~ In sep (before sep s).
Proof.
  unfold before. induction s as [|c s IH]; simpl; [tauto|].
  destruct (Ascii.eqb_spec c sep) as [->|N]; simpl; [tauto|].
  intros [E|H]; [now apply N|now apply IH].
Qed.

End StringsFacts.

(** ** Decimal numbers *)

Module StrconvFacts.

Import Strings Strconv Spec.

Lemma ord_digitChar (d : Z) : 0 <= d < 10 -> ord (digitChar d) = 48 + d.
Proof.
  intros H. unfold ord, digitChar.
  rewrite N_ascii_embedding by lia. lia.
Qed.

Lemma isDigit_digitChar (d : Z) : 0 <= d < 10 -> isDigit (digitChar d) = true.
Proof.
  intros H. unfold isDigit. rewrite ord_digitChar by assumption.
  apply andb_true_iff. split; apply Z.leb_le; lia.
Qed.

Lemma fmtDigits_S (fuel : nat) (n : Z) (acc : gostring) :
  fmtDigits (S fuel) n acc =
  if n <? 10 then digitChar (n mod 10) :: acc
  else fmtDigits fuel (n / 10) (digitChar (n mod 10) :: acc).
Proof. reflexivity. Qed.

Lemma fmtDigits_app (fuel : nat) (n : Z) (acc : gostring) :
  fmtDigits fuel n acc = fmtDigits fuel n [] ++ acc.
Proof.
  revert n acc. induction fuel as [|f IH]; intros n acc; [reflexivity|].
  rewrite !fmtDigits_S. destruct (n <? 10); [reflexivity|].
  rewrite IH, (IH _ [_]), <- app_assoc. reflexivity.
Qed.

Lemma fmtDigits_digits (fuel : nat) (n : Z) :
  0 <= n -> forallb isDigit (fmtDigits fuel n []) = true.
Proof.
  revert n. induction fuel as [|f IH]; intros n Hn; [reflexivity|].
  assert (Hd : isDigit (digitChar (n mod 10)) = true).
  { apply isDigit_digitChar. apply Z.mod_pos_bound. lia. }
  rewrite fmtDigits_S. destruct (n <? 10).
  - cbn [forallb]. now rewrite Hd.
  - rewrite fmtDigits_app, forallb_app, IH by (apply Z.div_pos; lia).
    cbn [forallb]. now rewrite Hd.
Qed.

Lemma fmtDigits_not_nil (fuel : nat) (n : Z) : fmtDigits (S fuel) n [] <> [].
Proof.
  rewrite fmtDigits_S. destruct (n <? 10); [easy|].
  rewrite fmtDigits_app. now destruct (fmtDigits fuel (n / 10) []).
Qed.

Lemma digitsValue_app (x y : gostring) (acc : Z) :
  digitsValue acc (x ++ y) =
  match digitsValue acc x with
  | Some v => digitsValue v y
  | None => None
  end.
Proof.
  revert acc. induction x as [|c x IH]; intros acc; simpl; [reflexivity|].
  destruct (isDigit c); [apply IH|reflexivity].
Qed.

(** Reading back the digits written for [n] gives [n], with fuel enough. *)
Lemma digitsValue_fmtDigits (fuel : nat) (n : Z) :
  0 <= n < 10 ^ Z.of_nat fuel ->
  digitsValue 0 (fmtDigits fuel n []) = Some n.
Proof.
  revert n. induction fuel as [|f IH]; intros n Hn.
  - simpl in *. f_equal. lia.
  - rewrite fmtDigits_S.
    assert (Hm : 0 <= n mod 10 < 10) by (apply Z.mod_pos_bound; lia).
    assert (Hv : digitsValue (n / 10) [digitChar (n mod 10)] = Some n).
    { cbn [digitsValue].
      rewrite isDigit_digitChar, ord_digitChar by assumption.
      f_equal. pose proof (Z.div_mod n 10). lia. }
    destruct (Z.ltb_spec n 10) as [L|L].
    + rewrite Z.div_small in Hv by lia. exact Hv.
    + rewrite fmtDigits_app, digitsValue_app, IH; [exact Hv|].
      rewrite Nat2Z.inj_succ, Z.pow_succ_r in Hn by lia.
      split; [apply Z.div_pos; lia|].
      apply Z.div_lt_upper_bound; lia.
Qed.

Lemma fuel_enough (n : Z) :
  0 <= n -> n < 10 ^ Z.of_nat (S (Z.to_nat (Z.log2 n))).
Proof.
  intros Hn. rewrite Nat2Z.inj_succ, Z2Nat.id by apply Z.log2_nonneg.
  destruct (Z.eq_dec n 0) as [->|N]; [reflexivity|].
  pose proof (Z.log2_spec n ltac:(lia)) as [_ H].
  eapply Z.lt_le_trans; [exact H|].
  apply Z.pow_le_mono_l. lia.
Qed.

(** The rendering of a non-negative number: digits only, at least one. *)
Lemma Itoa_digits (n : Z) :
  0 <= n -> forallb isDigit (Itoa n) = true /\ Itoa n <> [].
Proof.
  intros Hn. unfold Itoa. destruct (Z.ltb_spec n 0); [lia|].
  split; [now apply fmtDigits_digits|apply fmtDigits_not_nil].
Qed.

(** On a non-empty string of digits [Atoi] is the value, when it fits. *)
Lemma Atoi_digits (s : gostring) (n : Z) :
  s <> [] -> forallb isDigit s = true -> digitsValue 0 s = Some n ->
  n <= maxInt -> 0 <= n -> Atoi s = inl n.
Proof.
  intros Hs Hd Hv Hmax Hmin. unfold Atoi.
  destruct s as [|c s]; [easy|].
  simpl in Hd. apply andb_true_iff in Hd as [Hc _].
  assert (E1 : Ascii.eqb c "+" = false).
  { rewrite ord_eqb. revert Hc. ValidID.ord_cases c. }
  assert (E2 : Ascii.eqb c "-" = false).
  { rewrite ord_eqb. revert Hc. ValidID.ord_cases c. }
  rewrite E1, E2, Hv.
  replace (minInt <=? n) with true
    by (symmetry; apply Z.leb_le; unfold minInt; lia).
  replace (n <=? maxInt) with true by (symmetry; now apply Z.leb_le).
  reflexivity.
Qed.

(** [Atoi] reads back what [%d] writes, for a non-negative [int]. *)
Lemma Atoi_Itoa (n : Z) : 0 <= n <= maxInt -> Atoi (Itoa n) = inl n.
Proof.
  intros [Hn Hmax]. destruct (Itoa_digits n Hn) as [Hd Hne].
  apply Atoi_digits; try assumption.
  unfold Itoa. destruct (Z.ltb_spec n 0); [lia|].
  apply digitsValue_fmtDigits. split; [assumption|now apply fuel_enough].
Qed.

End StrconvFacts.

(** ** Sanitized identifiers *)

Module IDFacts.

Import Strings Strconv Version Spec ValidID.

Lemma wf_no_dot (s : gostring) : wellFormedID s -> ~ In "."%char s.
Proof.
  intros H Hin. unfold wellFormedID in H. rewrite Forall_forall in H.
  specialize (H _ Hin). revert H. now vm_compute.
Qed.

Lemma wf_no_plus (s : gostring) : wellFormedID s -> ~ In "+"%char s.
Proof.
  intros H Hin. unfold wellFormedID in H. rewrite Forall_forall in H.
  specialize (H _ Hin). revert H. now vm_compute.
Qed.

Lemma wf_not_Metadata (s : gostring) :
  wellFormedID s -> streq s Metadata = false.
Proof.
  intros H. destruct (streq s Metadata) eqn:E; [|reflexivity].
  apply streq_true in E. subst. exfalso.
  apply (wf_no_plus _ H). now left.
Qed.

Lemma filter_wf (k : gostring) : wellFormedID k -> filter permitted k = k.
Proof.
  induction 1 as [|c k Hc Hk IH]; simpl; [reflexivity|].
  now rewrite Hc, IH.
Qed.

Lemma dropWhile_Forall {A : Type} (P : A -> Prop) (p : A -> bool)
  (l : list A) : Forall P l -> Forall P (dropWhile p l).
Proof.
  induction 1 as [|x l Hx Hl IH]; simpl; [constructor|].
  destruct (p x); [assumption|now constructor].
Qed.

Lemma dropWhile_idem {A : Type} (p : A -> bool) (l : list A) :
  dropWhile p (dropWhile p l) = dropWhile p l.
Proof.
  induction l as [|x l IH]; simpl; [reflexivity|].
  destruct (p x) eqn:E; [assumption|]. simpl. now rewrite E.
Qed.

Lemma strip_wf (k : gostring) :
  wellFormedID k -> wellFormedID (stripLeadingZeros k).
Proof.
  intros H. unfold stripLeadingZeros.
  pose proof (dropWhile_Forall _ (Ascii.eqb "0") k H) as D.
  destruct (dropWhile (Ascii.eqb "0") k); [|assumption].
  constructor; [reflexivity|constructor].
Qed.

Lemma strip_digits (k : gostring) :
  forallb isDigit k = true -> forallb isDigit (stripLeadingZeros k) = true.
Proof.
  intros H. unfold stripLeadingZeros.
  assert (D : Forall (fun c => isDigit c = true) (dropWhile (Ascii.eqb "0") k)).
  { apply dropWhile_Forall, Forall_forall. now apply forallb_forall. }
  destruct (dropWhile (Ascii.eqb "0") k); [reflexivity|].
  apply forallb_forall. now apply Forall_forall.
Qed.

Lemma strip_not_nil (k : gostring) : stripLeadingZeros k <> [].
Proof.
  unfold stripLeadingZeros. now destruct (dropWhile (Ascii.eqb "0") k).
Qed.

Lemma strip_idem (k : gostring) :
  stripLeadingZeros (stripLeadingZeros k) = stripLeadingZeros k.
Proof.
  unfold stripLeadingZeros.
  destruct (dropWhile (Ascii.eqb "0") k) as [|c r] eqn:E; [reflexivity|].
  rewrite <- E, dropWhile_idem. now rewrite E.
Qed.

(** The sanitizer keeps permitted characters only. *)
Lemma sanitize_wf (id : gostring) (numeric : bool) :
  wellFormedID (sanitize id numeric).
Proof.
  unfold sanitize.
  destruct (numeric && _ && _);
    [apply strip_wf|]; apply filter_permitted_wf.
Qed.

Lemma length_pos {A : Type} (l : list A) :
  l <> [] -> (0 <? List.length l)%nat = true.
Proof. now destruct l. Qed.

(** Sanitizing a sanitized identifier changes nothing. *)
Lemma sanitize_idem (id : gostring) (numeric : bool) :
  sanitize (sanitize id numeric) numeric = sanitize id numeric.
Proof.
  unfold sanitize. set (k := filter permitted id).
  assert (Hk : wellFormedID k) by apply filter_permitted_wf.
  destruct (numeric && forallb isDigit k && (0 <? List.length k)%nat) eqn:C.
  - apply andb_true_iff in C as [C _]. apply andb_true_iff in C as [-> Hd].
    rewrite (filter_wf _ (strip_wf k Hk)), (strip_digits k Hd).
    rewrite (length_pos _ (strip_not_nil k)).
    apply strip_idem.
  - rewrite (filter_wf k Hk). now rewrite C.
Qed.

Lemma validID_wf (id : gostring) (numeric : bool) :
  wellFormedID (validID id numeric).
Proof. rewrite validID_sanitize. apply sanitize_wf. Qed.

Lemma validID_idem (id : gostring) (numeric : bool) :
  validID (validID id numeric) numeric = validID id numeric.
Proof. rewrite !validID_sanitize. apply sanitize_idem. Qed.

End IDFacts.

(** ** The constructor *)

Module NewFacts.

Import Strings Strconv Version Spec ValidID IDFacts.

Lemma NewLoop_metadata (prmds : list gostring) (v : vsn) :
  NewLoop false v prmds =
  mkVsn (major v) (minor v) (patch v) (preRelease v)
        (metadata v ++ map (fun t => validID t false) prmds).
Proof.
  revert v. induction prmds as [|t rest IH]; intros v; simpl.
  - rewrite app_nil_r. now destruct v.
  - rewrite IH. simpl. now rewrite <- app_assoc.
Qed.

(** What the loop of [New] collects: the tokens before the first marker,
    sanitized in numeric mode, and the tokens after it, sanitized plainly. *)
Lemma NewLoop_preRelease (prmds : list gostring) (v : vsn) :
  NewLoop true v prmds =
  mkVsn (major v) (minor v) (patch v)
        (preRelease v ++ map (fun t => validID t true) (prTokens prmds))
        (metadata v ++ map (fun t => validID t false) (mdTokens prmds)).
Proof.
  revert v. induction prmds as [|t rest IH]; intros v.
  - simpl. rewrite !app_nil_r. now destruct v.
  - cbn [NewLoop]. unfold prTokens, mdTokens. cbn [takeWhile dropWhile].
    destruct (streq t Metadata); cbn [negb].
    + rewrite NewLoop_metadata. simpl. now rewrite app_nil_r.
    + rewrite IH. simpl. now rewrite <- app_assoc.
Qed.

Lemma New_eq (ma mi pa : Z) (prmds : list gostring) :
  New ma mi pa prmds =
  mkVsn (Z.max 0 ma) (Z.max 0 mi) (Z.max 0 pa)
        (map (fun t => validID t true) (prTokens prmds))
        (map (fun t => validID t false) (mdTokens prmds)).
Proof.
  unfold New. rewrite NewLoop_preRelease. simpl. f_equal.
  all: match goal with |- context [?a <? 0] => destruct (Z.ltb_spec a 0) end;
    lia.
Qed.

Lemma New_preRelease_wf (ma mi pa : Z) (prmds : list gostring) :
  Forall wellFormedID (preRelease (New ma mi pa prmds)).
Proof.
  rewrite New_eq. simpl. apply Forall_map, Forall_forall.
  intros t _. apply validID_wf.
Qed.

Lemma New_metadata_wf (ma mi pa : Z) (prmds : list gostring) :
  Forall wellFormedID (metadata (New ma mi pa prmds)).
Proof.
  rewrite New_eq. simpl. apply Forall_map, Forall_forall.
  intros t _. apply validID_wf.
Qed.

Lemma takeWhile_all {A : Type} (p : A -> bool) (l r : list A) (x : A) :
  Forall (fun y => p y = true) l -> p x = false ->
  takeWhile p (l ++ x :: r) = l /\ dropWhile p (l ++ x :: r) = x :: r.
Proof.
  intros H Hx. induction H as [|y l Hy Hl IH]; simpl.
  - now rewrite Hx.
  - rewrite Hy. destruct IH as [-> ->]. auto.
Qed.

Lemma takeWhile_whole {A : Type} (p : A -> bool) (l : list A) :
  Forall (fun y => p y = true) l ->
  takeWhile p l = l /\ dropWhile p l = [].
Proof.
  induction 1 as [|y l Hy Hl [IH1 IH2]]; simpl; [auto|].
  rewrite Hy, IH1, IH2. auto.
Qed.

Lemma map_fixed {A : Type} (f : A -> A) (l : list A) :
  Forall (fun x => f x = x) l -> map f l = l.
Proof. induction 1 as [|x l Hx Hl IH]; simpl; congruence. Qed.

(** Sanitized sequences, given back to [New] with the marker between them,
    are stored as they are. *)
Lemma New_sanitized (ma mi pa : Z) (prmds mds : list gostring) :
  0 <= ma -> 0 <= mi -> 0 <= pa ->
  New ma mi pa
    (map (fun t => validID t true) prmds
       ++ Metadata :: map (fun t => validID t false) mds)
  = mkVsn ma mi pa (map (fun t => validID t true) prmds)
      (map (fun t => validID t false) mds).
Proof.
  intros. rewrite New_eq. unfold prTokens, mdTokens.
  destruct (takeWhile_all (fun t => negb (streq t Metadata))
              (map (fun t => validID t true) prmds)
              (map (fun t => validID t false) mds) Metadata) as [-> ->].
  - apply Forall_map, Forall_forall. intros t _.
    now rewrite wf_not_Metadata by apply validID_wf.
  - now rewrite streq_refl.
  - simpl. rewrite !Z.max_r by assumption. f_equal.
    + rewrite map_map. apply map_ext. intros t. apply validID_idem.
    + rewrite map_map. apply map_ext. intros t. apply validID_idem.
Qed.

Lemma New_sanitized_no_metadata (ma mi pa : Z) (prmds : list gostring) :
  0 <= ma -> 0 <= mi -> 0 <= pa ->
  New ma mi pa (map (fun t => validID t true) prmds)
  = mkVsn ma mi pa (map (fun t => validID t true) prmds) [].
Proof.
  intros. rewrite New_eq. unfold prTokens, mdTokens.
  destruct (takeWhile_whole (fun t => negb (streq t Metadata))
              (map (fun t => validID t true) prmds)) as [-> ->].
  - apply Forall_map, Forall_forall. intros t _.
    now rewrite wf_not_Metadata by apply validID_wf.
  - simpl. rewrite !Z.max_r by assumption. f_equal.
    rewrite map_map. apply map_ext. intros t. apply validID_idem.
Qed.

End NewFacts.

(** ** Comparison *)

Module LessFacts.

Import Strings Strconv Version Spec IDFacts StringsFacts.

(** The loop of [less] looks at the two slices only through the test
    [len(a) > len(b)]. *)
Lemma lessLoop_ext (a b a' b' ai bi : list gostring) :
  (List.length b <? List.length a)%nat
  = (List.length b' <? List.length a')%nat ->
  lessLoop a b ai bi = lessLoop a' b' ai bi.
Proof.
  intros H. revert bi. induction ai as [|x ai IH]; intros [|y bi]; simpl;
    rewrite ?H; try reflexivity.
  now rewrite IH.
Qed.

Lemma less_cons (x y : gostring) (a b : list gostring) :
  less (x :: a) (y :: b) =
  let '(nl, ok) := numericLess x y in
  if ok then nl
  else if strgt x y then false
  else if strlt x y then true
  else less a b.
Proof.
  unfold less. cbn [lessLoop].
  now rewrite (lessLoop_ext (x :: a) (y :: b) a b a b).
Qed.

Lemma less_nil_l (b : list gostring) : less [] b = false.
Proof. now destruct b. Qed.

Lemma less_nil_r (a : list gostring) :
  less a [] = (0 <? List.length a)%nat.
Proof. now destruct a. Qed.


Lemma numericLess_other (x y : gostring) :
  isNumeric x = false \/ isNumeric y = false ->
  numericLess x y = (false, false).
Proof.
  unfold isNumeric, numericLess.
  destruct (Atoi x) as [n|]; [|easy]. destruct (Atoi y) as [m|]; [|easy].
  now intros [H|H].
Qed.

(** Two identifiers that both parse as integers end the comparison, also
    when they are the same identifier. *)
Lemma less_numeric_stops (x y : gostring) (n m : Z) (a b : list gostring) :
  Atoi x = inl n -> Atoi y = inl m ->
  less (x :: a) (y :: b) = (n <? m).
Proof.
  intros Hx Hy. rewrite less_cons. unfold numericLess. now rewrite Hx, Hy.
Qed.

(** On slices [less] is irreflexive. *)
Lemma less_irrefl (a : list gostring) : less a a = false.
Proof.
  induction a as [|x a IH]; [reflexivity|].
  rewrite less_cons. unfold numericLess.
  destruct (Atoi x) as [n|]; [apply Z.ltb_irrefl|].
  unfold strgt. now rewrite strlt_irrefl.
Qed.


(** [Less] rebuilds the pre-release of its argument from the joined string;
    that gives the sequence itself, unless it is the sequence of one empty
    identifier. *)
Lemma rebuilt_preRelease (l : list gostring) :
  Forall wellFormedID l -> l <> [[]] ->
  (if (0 <? List.length (Join l ["."%char]))%nat
   then Split (Join l ["."%char]) "." else []) = l.
Proof.
  intros Hwf Hne. destruct l as [|e l]; [reflexivity|].
  destruct (Join (e :: l) ["."%char]) eqn:J.
  - apply Join_nil in J as [J|J]; [discriminate|contradiction].
  - rewrite <- J. cbn [List.length Nat.ltb Nat.leb].
    rewrite J at 1. cbn [List.length Nat.ltb Nat.leb].
    apply Split_Join; [discriminate|].
    eapply Forall_impl; [|exact Hwf]. intros s. apply wf_no_dot.
Qed.

(** [Less] as the order on the number triple, then [less] on the stored
    pre-release sequences. *)
Lemma Less_eq (v cv : vsn) :
  Forall wellFormedID (preRelease cv) -> preRelease cv <> [[]] ->
  Less v cv =
  if major v <? major cv then true
  else if major cv <? major v then false
  else if minor v <? minor cv then true
  else if minor cv <? minor v then false
  else if patch v <? patch cv then true
  else if patch cv <? patch v then false
  else less (preRelease v) (preRelease cv).
Proof.
  intros Hwf Hne. unfold Less, Major, Minor, Patch, PreRelease.
  now rewrite (rebuilt_preRelease _ Hwf Hne).
Qed.

Lemma constructed_wf (v : vsn) :
  constructed v ->
  Forall wellFormedID (preRelease v) /\ Forall wellFormedID (metadata v).
Proof.
  intros (ma & mi & pa & prmds & _ & _ & _ & ->).
  split; [apply NewFacts.New_preRelease_wf|apply NewFacts.New_metadata_wf].
Qed.

Ltac triple_cases :=
  repeat match goal with
    | H : context [?a <? ?b] |- _ => destruct (Z.ltb_spec a b)
    | |- context [?a <? ?b] => destruct (Z.ltb_spec a b)
    end;
  try reflexivity; try discriminate; try lia.

(** A constructed version is not below itself, the one with a single empty
    pre-release identifier apart. *)
Lemma Less_irrefl (v : vsn) :
  constructed v -> preRelease v <> [[]] -> Less v v = false.
Proof.
  intros Hv Hne. destruct (constructed_wf v Hv) as [Wv _].
  rewrite (Less_eq v v Wv Hne). triple_cases. apply less_irrefl.
Qed.




End LessFacts.

(** ** Parsing *)

Module ParseFacts.

Import Strings Strconv Version Spec IDFacts StringsFacts StrconvFacts.

(** [splitVersionString] never fails: it cuts at the first ["+"], then cuts
    what is before it at the first ["-"]. *)
Lemma splitVersionString_eq (raw : gostring) :
  splitVersionString raw =
  let '(np, m) := match Cut raw "+" with
                  | Some (np, m) => (np, m)
                  | None => (raw, [])
                  end in
  let '(n, p) := match Cut np "-" with
                 | Some (n, p) => (n, p)
                 | None => (np, [])
                 end in
  Ok [n; p; m].
Proof.
  unfold splitVersionString, MetadataSep. rewrite SplitN_2.
  destruct (Cut raw "+") as [[np m]|]; rewrite SplitN_2.
  - now destruct (Cut np "-") as [[n p]|].
  - now destruct (Cut raw "-") as [[n p]|].
Qed.

Lemma splitVersionString_parts (raw np m n p : gostring) :
  match Cut raw "+" with
  | Some (np, m) => (np, m)
  | None => (raw, [])
  end = (np, m) ->
  match Cut np "-" with
  | Some (n, p) => (n, p)
  | None => (np, [])
  end = (n, p) ->
  splitVersionString raw = Ok [n; p; m].
Proof.
  intros H1 H2. rewrite splitVersionString_eq, H1. now rewrite H2.
Qed.

(** Its first piece is the numeric segment. *)
Lemma splitVersionString_numeric (raw : gostring) :
  exists p m, splitVersionString raw = Ok [numericSegment raw; p; m].
Proof.
  rewrite splitVersionString_eq. unfold numericSegment.
  pose proof (Cut_before raw "+") as H1.
  destruct (Cut raw "+") as [[np m]|]; rewrite <- H1.
  - pose proof (Cut_before np "-") as H2.
    destruct (Cut np "-") as [[n p]|]; rewrite <- H2; eauto.
  - pose proof (Cut_before raw "-") as H2.
    destruct (Cut raw "-") as [[n p]|]; rewrite <- H2; eauto.
Qed.

Lemma badComponent_dec (c : gostring) : {badComponent c} + {~ badComponent c}.
Proof.
  unfold badComponent. destruct (Atoi c) as [n|e].
  - destruct (Z_lt_dec n 0); auto.
  - now left.
Qed.

Lemma setIndex_ok (l : list Z) (i : nat) (x : Z) :
  (i < List.length l)%nat ->
  exists l', setIndex l i x = Ok l' /\ List.length l' = List.length l.
Proof.
  revert i. induction l as [|y l IH]; intros i Hi; simpl in Hi; [lia|].
  destruct i as [|i]; simpl; [eauto|].
  destruct (IH i ltac:(lia)) as (l' & -> & Hl).
  exists (y :: l'). split; [reflexivity|simpl; congruence].
Qed.

(** With good components only the loop ends well, and does not panic while
    the indices stay inside the slice. *)
Lemma parseNumberLoop_ok (nstrs : list gostring) (i : nat) (vsn : list Z) :
  Forall (fun c => ~ badComponent c) nstrs ->
  (i + List.length nstrs <= List.length vsn)%nat ->
  exists vsn', parseNumberLoop i nstrs vsn = Ok vsn'
               /\ List.length vsn' = List.length vsn.
Proof.
  intros H. revert i vsn.
  induction H as [|c nstrs Hc Hrest IH]; intros i vsn Hlen; simpl in *.
  - eauto.
  - unfold badComponent in Hc. destruct (Atoi c) as [n|e]; [|tauto].
    destruct (Z.ltb_spec n 0); [lia|].
    destruct (setIndex_ok vsn i n ltac:(lia)) as (vsn' & -> & Hl). simpl.
    destruct (IH (S i) vsn' ltac:(lia)) as (vsn'' & -> & Hl'').
    exists vsn''. split; [reflexivity|congruence].
Qed.

(** With a bad component the loop fails, with the code of the package. *)
Lemma parseNumberLoop_err (nstrs : list gostring) (i : nat) (vsn : list Z) :
  Exists badComponent nstrs ->
  (i + List.length nstrs <= List.length vsn)%nat ->
  exists e, parseNumberLoop i nstrs vsn = Err e
            /\ Errors.Code e = ErrIllegalVersionFormat.
Proof.
  revert i vsn. induction nstrs as [|c nstrs IH]; intros i vsn H Hlen.
  - inversion H.
  - simpl in *. destruct (badComponent_dec c) as [B|G].
    + unfold badComponent in B. destruct (Atoi c) as [n|e]; [|eauto].
      destruct (Z.ltb_spec n 0); [eauto|lia].
    + inversion H as [? ? B|? ? Hrest]; subst; [contradiction|].
      unfold badComponent in G. destruct (Atoi c) as [n|e]; [|tauto].
      destruct (Z.ltb_spec n 0); [lia|].
      destruct (setIndex_ok vsn i n ltac:(lia)) as (vsn' & -> & Hl). simpl.
      apply IH; [assumption|lia].
Qed.

(** The outcomes of [parseNumberString]: an error exactly for more than
    three components or a bad one, three numbers otherwise. *)
Lemma parseNumberString_cases (nstr : gostring) :
  let comps := Split nstr "." in
  ((3 < List.length comps)%nat \/ Exists badComponent comps) /\
    (exists e, parseNumberString nstr = Err e
               /\ Errors.Code e = ErrIllegalVersionFormat)
  \/
  ~ ((3 < List.length comps)%nat \/ Exists badComponent comps) /\
    (exists n0 n1 n2, parseNumberString nstr = Ok [n0; n1; n2]).
Proof.
  intros comps. unfold parseNumberString. fold comps.
  assert (Hne : comps <> []) by apply Split_not_nil.
  assert (H1 : (List.length comps <? 1)%nat = false).
  { destruct comps; [easy|reflexivity]. }
  rewrite H1. cbn [orb].
  destruct (Nat.ltb_spec 3 (List.length comps)) as [L|L].
  - left. split; [now left|]. eauto.
  - destruct (Exists_dec badComponent comps badComponent_dec) as [B|G].
    + left. split; [now right|].
      apply parseNumberLoop_err; [assumption|simpl; lia].
    + right. split; [intros [?|?]; [lia|contradiction]|].
      destruct (parseNumberLoop_ok comps 0 [1; 0; 0]) as (v & Hv & Hl).
      * now apply Forall_Exists_neg.
      * simpl. lia.
      * rewrite Hv. destruct v as [|n0 [|n1 [|n2 [|? ?]]]]; try discriminate.
        eauto.
Qed.

(** [Parse] in terms of the numeric segment. *)
Lemma Parse_cases (raw : gostring) :
  illegalFormat raw /\
    (exists e, Parse raw = Err e /\ Errors.Code e = ErrIllegalVersionFormat)
  \/
  ~ illegalFormat raw /\
    (exists n0 n1 n2 prmds,
        parseNumberString (numericSegment raw) = Ok [n0; n1; n2]
        /\ Parse raw = Ok (New n0 n1 n2 prmds)).
Proof.
  unfold Parse, illegalFormat.
  destruct (splitVersionString_numeric raw) as (p & m & ->). cbn [bind].
  destruct (parseNumberString_cases (numericSegment raw))
    as [[B (e & -> & He)]|[G (n0 & n1 & n2 & ->)]].
  - left. split; [assumption|]. cbn [bind]. eauto.
  - right. split; [assumption|]. cbn [bind]. eauto 8.
Qed.

(** The numbers of one, two and three good components. *)
Lemma parseNumberString_1 (nstr c1 : gostring) (n1 : Z) :
  Split nstr "." = [c1] -> Atoi c1 = inl n1 -> 0 <= n1 ->
  parseNumberString nstr = Ok [n1; 0; 0].
Proof.
  intros HS H1 P1. unfold parseNumberString. rewrite HS.
  cbn -[Atoi Z.ltb]. rewrite H1.
  now destruct (Z.ltb_spec n1 0); [lia|].
Qed.

Lemma parseNumberString_2 (nstr c1 c2 : gostring) (n1 n2 : Z) :
  Split nstr "." = [c1; c2] ->
  Atoi c1 = inl n1 -> 0 <= n1 -> Atoi c2 = inl n2 -> 0 <= n2 ->
  parseNumberString nstr = Ok [n1; n2; 0].
Proof.
  intros HS H1 P1 H2 P2. unfold parseNumberString. rewrite HS.
  cbn -[Atoi Z.ltb]. rewrite H1.
  destruct (Z.ltb_spec n1 0); [lia|]. cbn -[Atoi Z.ltb]. rewrite H2.
  now destruct (Z.ltb_spec n2 0); [lia|].
Qed.

Lemma parseNumberString_3 (nstr c1 c2 c3 : gostring) (n1 n2 n3 : Z) :
  Split nstr "." = [c1; c2; c3] ->
  Atoi c1 = inl n1 -> 0 <= n1 -> Atoi c2 = inl n2 -> 0 <= n2 ->
  Atoi c3 = inl n3 -> 0 <= n3 ->
  parseNumberString nstr = Ok [n1; n2; n3].
Proof.
  intros HS H1 P1 H2 P2 H3 P3. unfold parseNumberString. rewrite HS.
  cbn -[Atoi Z.ltb]. rewrite H1.
  destruct (Z.ltb_spec n1 0); [lia|]. cbn -[Atoi Z.ltb]. rewrite H2.
  destruct (Z.ltb_spec n2 0); [lia|]. cbn -[Atoi Z.ltb]. rewrite H3.
  now destruct (Z.ltb_spec n3 0); [lia|].
Qed.

End ParseFacts.

(** ** Rendering, and parsing what was rendered *)

Module RenderFacts.

Import Strings Strconv Version Spec IDFacts StringsFacts StrconvFacts.
Import NewFacts LessFacts ParseFacts.

Lemma not_empty_string (s : gostring) :
  negb (streq s []) = (0 <? List.length s)%nat.
Proof. now destruct s. Qed.

Lemma digits_not_in (s : gostring) (c : ascii) :
  forallb isDigit s = true -> isDigit c = false -> ~ In c s.
Proof.
  intros Hs Hc Hin. rewrite forallb_forall in Hs.
  specialize (Hs _ Hin). congruence.
Qed.

Section Rendered.

(** A version value as [New] builds it. *)
Variable v : vsn.
Hypothesis Hmajor : 0 <= major v <= maxInt.
Hypothesis Hminor : 0 <= minor v <= maxInt.
Hypothesis Hpatch : 0 <= patch v <= maxInt.
Hypothesis Hpre : Forall wellFormedID (preRelease v).
Hypothesis Hmeta : Forall wellFormedID (metadata v).

Lemma String_eq :
  String v =
  (numbers v
     ++ (if (0 <? List.length (preRelease v))%nat
         then "-"%char :: PreRelease v else []))
    ++ (if (0 <? List.length (metadata v))%nat
        then "+"%char :: MetadataString v else []).
Proof.
  unfold String. fold (numbers v).
  destruct (0 <? List.length (preRelease v))%nat,
    (0 <? List.length (metadata v))%nat;
    unfold Metadata; simpl; now rewrite ?app_nil_r.
Qed.

Lemma numbers_chars (c : ascii) :
  In c (numbers v) -> isDigit c = true \/ c = "."%char.
Proof.
  unfold numbers. rewrite !in_app_iff. simpl.
  destruct (Itoa_digits _ (proj1 Hmajor)) as [D1 _].
  destruct (Itoa_digits _ (proj1 Hminor)) as [D2 _].
  destruct (Itoa_digits _ (proj1 Hpatch)) as [D3 _].
  rewrite forallb_forall in D1, D2, D3.
  intros [H|[[H|[]]|[H|[[H|[]]|H]]]]; auto.
Qed.

Lemma numbers_no_plus : ~ In "+"%char (numbers v).
Proof. intros H. now destruct (numbers_chars _ H). Qed.

Lemma numbers_no_minus : ~ In "-"%char (numbers v).
Proof. intros H. now destruct (numbers_chars _ H). Qed.

Lemma PreRelease_no_plus : ~ In "+"%char (PreRelease v).
Proof.
  intros H. apply In_Join in H as [H|(e & He & Hc)]; [discriminate|].
  rewrite Forall_forall in Hpre. now apply (wf_no_plus e (Hpre e He)).
Qed.

(** The rendering is cut back into its three parts. *)
Lemma splitVersionString_String :
  splitVersionString (String v)
  = Ok [numbers v; PreRelease v; MetadataString v].
Proof.
  rewrite String_eq.
  set (np := numbers v ++
             (if (0 <? List.length (preRelease v))%nat
              then "-"%char :: PreRelease v else [])).
  assert (Hnp : ~ In "+"%char np).
  { unfold np. rewrite in_app_iff.
    intros [H|H]; [now apply numbers_no_plus|].
    destruct (0 <? List.length (preRelease v))%nat; [|easy].
    destruct H as [H|H]; [discriminate|now apply PreRelease_no_plus]. }
  apply (splitVersionString_parts _ np).
  - destruct (metadata v) as [|e l] eqn:E.
    + cbn [List.length Nat.ltb Nat.leb]. rewrite app_nil_r.
      rewrite Cut_no_sep by assumption.
      unfold MetadataString. now rewrite E.
    + cbn [List.length Nat.ltb Nat.leb].
      now rewrite Cut_app by assumption.
  - unfold np. destruct (preRelease v) as [|e l] eqn:E.
    + cbn [List.length Nat.ltb Nat.leb].
      rewrite app_nil_r, Cut_no_sep by apply numbers_no_minus.
      unfold PreRelease. now rewrite E.
    + cbn [List.length Nat.ltb Nat.leb].
      now rewrite Cut_app by apply numbers_no_minus.
Qed.

Lemma Split_numbers :
  Split (numbers v) "."
  = [Itoa (major v); Itoa (minor v); Itoa (patch v)].
Proof.
  destruct (Itoa_digits _ (proj1 Hmajor)) as [D1 _].
  destruct (Itoa_digits _ (proj1 Hminor)) as [D2 _].
  destruct (Itoa_digits _ (proj1 Hpatch)) as [D3 _].
  unfold numbers. cbn [app].
  rewrite Split_app by now apply digits_not_in.
  rewrite Split_app by now apply digits_not_in.
  rewrite Split_no_sep by now apply digits_not_in.
  reflexivity.
Qed.

Lemma parseNumberString_numbers :
  parseNumberString (numbers v) = Ok [major v; minor v; patch v].
Proof.
  apply (parseNumberString_3 _ _ _ _ _ _ _ Split_numbers);
    try apply Atoi_Itoa; try assumption; lia.
Qed.

(** Parsing a rendering always gives a version: the one [New] builds from
    the numbers and the identifiers found in the text. *)
Lemma Parse_String :
  Parse (String v) =
  Ok (New (major v) (minor v) (patch v)
        (let prmds := if negb (streq (PreRelease v) [])
                      then Split (PreRelease v) "." else [] in
         if negb (streq (MetadataString v) [])
         then (prmds ++ [Metadata]) ++ Split (MetadataString v) "."
         else prmds)).
Proof.
  unfold Parse. rewrite splitVersionString_String. cbn [bind].
  now rewrite parseNumberString_numbers.
Qed.

(** The identifiers found in the text are the stored ones, the sequence of
    one empty identifier apart. *)
Lemma tokens_String :
  preRelease v <> [[]] -> metadata v <> [[]] ->
  (let prmds := if negb (streq (PreRelease v) [])
                then Split (PreRelease v) "." else [] in
   if negb (streq (MetadataString v) [])
   then (prmds ++ [Metadata]) ++ Split (MetadataString v) "."
   else prmds)
  = preRelease v
      ++ (if (0 <? List.length (metadata v))%nat
          then Metadata :: metadata v else []).
Proof.
  intros Npre Nmeta. cbv zeta. unfold PreRelease, MetadataString.
  rewrite !not_empty_string.
  rewrite (rebuilt_preRelease _ Hpre Npre).
  pose proof (rebuilt_preRelease _ Hmeta Nmeta) as R.
  destruct (metadata v) as [|e l] eqn:E; [now rewrite app_nil_r|].
  destruct (0 <? List.length (Join (e :: l) ["."%char]))%nat.
  - rewrite R. cbn [List.length Nat.ltb Nat.leb].
    now rewrite <- app_assoc.
  - discriminate.
Qed.

End Rendered.

(** The fields of a constructed version are in the range the lemmas above
    ask for. *)
Lemma New_rendered (ma mi pa : Z) (prmds : list gostring) :
  isInt ma -> isInt mi -> isInt pa ->
  let v := New ma mi pa prmds in
  0 <= major v <= maxInt /\ 0 <= minor v <= maxInt /\
  0 <= patch v <= maxInt.
Proof.
  unfold isInt, minInt, maxInt. intros H1 H2 H3. rewrite New_eq. simpl. lia.
Qed.

(** A constructed version is parsed back from its rendering, the sequences
    of one empty identifier apart. *)
Lemma Parse_String_New (ma mi pa : Z) (prmds : list gostring) :
  isInt ma -> isInt mi -> isInt pa ->
  preRelease (New ma mi pa prmds) <> [[]] ->
  metadata (New ma mi pa prmds) <> [[]] ->
  Parse (String (New ma mi pa prmds)) = Ok (New ma mi pa prmds).
Proof.
  intros H1 H2 H3 Npre Nmeta.
  destruct (New_rendered ma mi pa prmds H1 H2 H3) as (R1 & R2 & R3).
  pose proof (New_preRelease_wf ma mi pa prmds) as Wpre.
  pose proof (New_metadata_wf ma mi pa prmds) as Wmeta.
  rewrite (Parse_String _ R1 R2 R3 Wpre Wmeta).
  rewrite (tokens_String _ Wpre Wmeta Npre Nmeta).
  f_equal. revert R1 R2 R3. rewrite New_eq. cbn [major minor patch preRelease metadata].
  intros R1 R2 R3.
  destruct (mdTokens prmds) as [|t ts] eqn:E.
  - cbn [map List.length Nat.ltb Nat.leb]. rewrite app_nil_r.
    apply New_sanitized_no_metadata; lia.
  - cbn [List.length Nat.ltb Nat.leb map]. rewrite <- (map_cons (fun t => validID t false)).
    apply New_sanitized; lia.
Qed.

End RenderFacts.

(** * The claims *)

Import Strings Strconv Version Spec.
Import ValidID IDFacts StringsFacts StrconvFacts NewFacts LessFacts.
Import ParseFacts RenderFacts.

(** ** Comparison *)

(** C1. Irreflexivity of [Less] fails on a constructed version: the version
    built from the single raw token [""] stores one empty pre-release
    identifier, its joined pre-release is the empty string, [Less] takes that
    for no pre-release at all, and the version is below itself. [Parse]
    returns the same version for ["1.0.0-!"]. *)
Theorem Less_single_empty_identifier :
  let v := New 1 0 0 [bytes ""] in
  (preRelease v = [[]] /\ PreRelease v = [] /\ Less v v = true) /\
  (Parse (bytes "1.0.0-!") = Ok v).
Proof. vm_compute. auto. Qed.

(** C2. Two identifiers that are the same string do not always let the
    comparison go on: at ["1"] against ["1"] both parse as integers,
    [numericLess] answers [(false, true)] and [less] returns [false] there,
    although the next position, ["2"] against ["3"], would decide "less". *)
Theorem less_equal_numeric_identifiers_stop :
  let a := New 1 0 0 [bytes "1"; bytes "2"] in
  let b := New 1 0 0 [bytes "1"; bytes "3"] in
  preRelease a = [bytes "1"; bytes "2"] /\
  preRelease b = [bytes "1"; bytes "3"] /\
  numericLess (bytes "1") (bytes "1") = (false, true) /\
  less [bytes "2"] [bytes "3"] = true /\
  Less a b = false /\ Less b a = false.
Proof. vm_compute. auto 6. Qed.




(** C4. A longer pre-release that agrees with the shorter one on the common
    positions is not always below it: when the identifiers at an agreeing
    position parse as integers the comparison ends there with [false]. *)
Theorem Less_longer_after_equal_numeric :
  let a := New 1 0 0 [bytes "1"; bytes "x"] in
  let b := New 1 0 0 [bytes "1"] in
  preRelease a = [bytes "1"; bytes "x"] /\ preRelease b = [bytes "1"] /\
  Less a b = false.
Proof. vm_compute. auto. Qed.

(** What does hold of C4: after a common prefix of identifiers that do not
    parse as integers the comparison goes on, so that the longer sequence is
    below the sequence that is its prefix, and equal sequences tie. *)
Lemma less_common_prefix (p a b : list gostring) :
  Forall (fun x => isNumeric x = false) p ->
  less (p ++ a) (p ++ b) = less a b.
Proof.
  induction 1 as [|x p Hx Hp IH]; [reflexivity|].
  cbn [app]. rewrite less_cons, (numericLess_other x x (or_introl Hx)).
  unfold strgt. now rewrite strlt_irrefl.
Qed.

Lemma less_longer (p r : list gostring) :
  Forall (fun x => isNumeric x = false) p ->
  less (p ++ r) p = (0 <? List.length r)%nat /\ less p (p ++ r) = false.
Proof.
  intros Hp. split.
  - rewrite <- (app_nil_r p) at 2.
    now rewrite less_common_prefix, less_nil_r.
  - rewrite <- (app_nil_r p) at 1.
    now rewrite less_common_prefix, less_nil_l.
Qed.

Lemma Less_prerelease_before_final :
  exists a b, Parse (bytes "1.0.0-alpha") = Ok a /\
              Parse (bytes "1.0.0") = Ok b /\
              Less a b = true /\ Less b a = false.
Proof. do 2 eexists. repeat split. Qed.

(** ** Rendering and parsing *)

(** C5, as stated, fails: the version built from the single raw token [""]
    renders as ["1.0.0-"], which parses to a version without pre-release. *)
Lemma roundtrip_single_empty_identifier :
  0 <= 1 /\ 0 <= 0 /\
  String (New 1 0 0 [bytes ""]) = bytes "1.0.0-" /\
  ~ (exists v, Parse (String (New 1 0 0 [bytes ""])) = Ok v
               /\ sameContent v (New 1 0 0 [bytes ""])).
Proof.
  repeat split; try lia.
  intros (v & Hv & _ & _ & _ & Hpre & _).
  vm_compute in Hv. injection Hv as <-. discriminate Hpre.
Qed.

(** C5, amended. For every triple of non-negative [int]s and every list of
    raw tokens whose sanitized pre-release sequence and sanitized metadata
    sequence are both different from the sequence of one empty identifier,
    parsing the rendering of the constructed version succeeds and gives a
    version with the same major, minor, patch, pre-release and metadata. *)
Theorem Parse_String_roundtrip (ma mi pa : Z) (prmds : list gostring) :
  0 <= ma <= maxInt -> 0 <= mi <= maxInt -> 0 <= pa <= maxInt ->
  preRelease (New ma mi pa prmds) <> [[]] ->
  metadata (New ma mi pa prmds) <> [[]] ->
  exists v, Parse (String (New ma mi pa prmds)) = Ok v
            /\ sameContent v (New ma mi pa prmds).
Proof.
  intros Hma Hmi Hpa Npre Nmeta. exists (New ma mi pa prmds).
  split; [|now repeat split].
  apply Parse_String_New; try assumption;
    unfold isInt, minInt, maxInt in *; lia.
Qed.

Lemma Parse_String_roundtrip_witness :
  let prmds := [bytes "rc"; bytes "007"; bytes "+"; bytes "build.007"] in
  String (New 1 2 3 prmds) = bytes "1.2.3-rc.7+build007" /\
  exists v, Parse (String (New 1 2 3 prmds)) = Ok v
            /\ sameContent v (New 1 2 3 prmds).
Proof.
  intros prmds. split; [reflexivity|].
  apply (Parse_String_roundtrip 1 2 3 prmds).
  - unfold maxInt. lia.
  - unfold maxInt. lia.
  - unfold maxInt. lia.
  - vm_compute. discriminate.
  - vm_compute. discriminate.
Defined.

(** C6. [Parse] fails exactly when the numeric segment has more than three
    dot-separated components or a component that is no non-negative
    integer; every failure carries the one code [ErrIllegalVersionFormat];
    on every other input [Parse] returns a version (it never panics, and
    splitting and sanitizing the identifiers cannot fail). *)
Theorem Parse_fails_exactly (raw : gostring) :
  ((exists e, Parse raw = Err e) <-> illegalFormat raw) /\
  (forall e, Parse raw = Err e ->
             Errors.IsError e ErrIllegalVersionFormat = true) /\
  (~ illegalFormat raw -> exists v, Parse raw = Ok v).
Proof.
  destruct (Parse_cases raw)
    as [[B (e & He & Hc)]|[G (n0 & n1 & n2 & prmds & _ & Hv)]].
  - split; [|split].
    + split; [now intros _|intros _; now exists e].
    + intros e' He'. rewrite He in He'. injection He' as <-.
      unfold Errors.IsError. now rewrite Hc.
    + intros N. contradiction.
  - split; [|split].
    + split; [intros (e & He); congruence|intros B; contradiction].
    + intros e He. congruence.
    + intros _. eauto.
Qed.

Lemma Parse_fails_exactly_witness :
  (exists e, Parse (bytes "1.2.3.4-rc+b") = Err e) /\
  (exists e, Parse (bytes "1.x") = Err e) /\
  (exists v, Parse (bytes "1.2-3.4.5.6") = Ok v).
Proof.
  split; [|split].
  - apply (proj1 (Parse_fails_exactly (bytes "1.2.3.4-rc+b"))).
    left. vm_compute. lia.
  - apply (proj1 (Parse_fails_exactly (bytes "1.x"))).
    right. apply Exists_cons_tl, Exists_cons_hd. exact I.
  - apply (proj2 (proj2 (Parse_fails_exactly (bytes "1.2-3.4.5.6")))).
    intros [H|H].
    + vm_compute in H. lia.
    + change (Split (numericSegment (bytes "1.2-3.4.5.6")) ".")
        with [bytes "1"; bytes "2"] in H.
      inversion H as [? ? B|? ? H']; subst.
      * vm_compute in B. discriminate.
      * inversion H' as [? ? B|? ? H'']; subst.
        -- vm_compute in B. discriminate.
        -- inversion H''.
Defined.

(** C7. The components of the numeric segment overwrite the triple
    [1, 0, 0] from the left: a numeric segment of one component gives major
    from it, minor 0 and patch 0; one of two components gives major and
    minor from them and patch 0; so for ["5"], ["5.2"] and ["2"]. *)
Theorem Parse_defaults :
  (forall nstr,
      (List.length (Split nstr ".") <= 3)%nat ->
      parseNumberString nstr = parseNumberLoop 0 (Split nstr ".") [1; 0; 0]) /\
  (forall raw c1 n1,
      Split (numericSegment raw) "." = [c1] ->
      Atoi c1 = inl n1 -> 0 <= n1 ->
      exists v, Parse raw = Ok v
                /\ major v = n1 /\ minor v = 0 /\ patch v = 0) /\
  (forall raw c1 c2 n1 n2,
      Split (numericSegment raw) "." = [c1; c2] ->
      Atoi c1 = inl n1 -> 0 <= n1 -> Atoi c2 = inl n2 -> 0 <= n2 ->
      exists v, Parse raw = Ok v
                /\ major v = n1 /\ minor v = n2 /\ patch v = 0) /\
  Parse (bytes "5") = Ok (mkVsn 5 0 0 [] []) /\
  Parse (bytes "5.2") = Ok (mkVsn 5 2 0 [] []) /\
  Parse (bytes "2") = Ok (mkVsn 2 0 0 [] []).
Proof.
  split; [|split; [|split; [|now vm_compute]]].
  - intros nstr Hlen. unfold parseNumberString.
    pose proof (Split_not_nil nstr ".") as Hne.
    destruct (Split nstr ".") as [|c comps]; [easy|].
    destruct (Nat.ltb_spec 3 (List.length (c :: comps))); [lia|reflexivity].
  - intros raw c1 n1 HS H1 P1. unfold Parse.
    destruct (splitVersionString_numeric raw) as (p & m & ->). cbn [bind].
    rewrite (parseNumberString_1 _ _ _ HS H1 P1). cbn [bind].
    eexists. split; [reflexivity|]. rewrite New_eq. simpl. lia.
  - intros raw c1 c2 n1 n2 HS H1 P1 H2 P2. unfold Parse.
    destruct (splitVersionString_numeric raw) as (p & m & ->). cbn [bind].
    rewrite (parseNumberString_2 _ _ _ _ _ HS H1 P1 H2 P2). cbn [bind].
    eexists. split; [reflexivity|]. rewrite New_eq. simpl. lia.
Qed.

Lemma Parse_defaults_witness :
  (exists v, Parse (bytes "07-rc.1+b") = Ok v
             /\ major v = 7 /\ minor v = 0 /\ patch v = 0) /\
  (exists v, Parse (bytes "5.2+b") = Ok v
             /\ major v = 5 /\ minor v = 2 /\ patch v = 0).
Proof.
  split.
  - apply (proj1 (proj2 Parse_defaults) (bytes "07-rc.1+b") (bytes "07") 7).
    + reflexivity.
    + reflexivity.
    + lia.
  - apply (proj1 (proj2 (proj2 Parse_defaults))
             (bytes "5.2+b") (bytes "5") (bytes "2") 5 2).
    + reflexivity.
    + reflexivity.
    + lia.
    + reflexivity.
    + lia.
Defined.

(** ** Identifiers *)

Lemma leading_zeros (l : gostring) :
  exists zeros,
    l = repeat "0"%char zeros ++ dropWhile (Ascii.eqb "0") l
    /\ hd_error (dropWhile (Ascii.eqb "0") l) <> Some "0"%char.
Proof.
  induction l as [|c l (z & Hz & Hhd)].
  - now exists O.
  - cbn [dropWhile]. destruct (Ascii.eqb_spec "0"%char c) as [<-|N].
    + exists (S z). split; [|assumption]. simpl. now f_equal.
    + exists O. split; [reflexivity|]. simpl. congruence.
Qed.

(** C8. [validID] returns the permitted characters of the input (ASCII
    letters, digits, hyphen) in their order; in numeric mode, when these are
    digits only and at least one, it returns them without the leading
    zeros, and ["0"] when nothing else is left. *)
Theorem validID_sanitizes (id : gostring) (numeric : bool) :
  let kept := filter permitted id in
  validID id numeric = sanitize id numeric /\
  if numeric && forallb isDigit kept && (0 <? List.length kept)%nat
  then exists zeros rest,
         kept = repeat "0"%char zeros ++ rest
         /\ hd_error rest <> Some "0"%char
         /\ validID id numeric = match rest with
                                 | [] => ["0"%char]
                                 | _ => rest
                                 end
  else validID id numeric = kept.
Proof.
  intros kept. split; [apply validID_sanitize|].
  rewrite validID_sanitize. unfold sanitize. fold kept.
  destruct (numeric && forallb isDigit kept && (0 <? List.length kept)%nat);
    [|reflexivity].
  destruct (leading_zeros kept) as (z & Hz & Hhd).
  exists z, (dropWhile (Ascii.eqb "0") kept).
  split; [assumption|]. split; [assumption|].
  unfold stripLeadingZeros. now destruct (dropWhile (Ascii.eqb "0") kept).
Qed.

(** C9, as stated, fails: the single raw token [""] is stored as an empty
    pre-release identifier, and so is the middle token of ["1.0.0-a..b"]. *)
Lemma New_empty_identifier :
  ~ Forall (fun s => s <> [] /\ wellFormedID s)
      (preRelease (New 1 0 0 [bytes ""])) /\
  exists v, Parse (bytes "1.0.0-a..b") = Ok v /\ In [] (preRelease v).
Proof.
  split.
  - intros H. inversion H as [|? ? [N _] _]; subst. now apply N.
  - eexists. split; [reflexivity|]. vm_compute. auto.
Qed.

(** C9, amended. Every element of the pre-release and of the metadata
    sequence of a version that [New] or [Parse] returns is made of ASCII
    letters, digits and hyphens only (it may be the empty string). *)
Theorem identifiers_wellFormed :
  (forall ma mi pa prmds,
      Forall wellFormedID (preRelease (New ma mi pa prmds)) /\
      Forall wellFormedID (metadata (New ma mi pa prmds))) /\
  (forall raw v,
      Parse raw = Ok v ->
      Forall wellFormedID (preRelease v) /\
      Forall wellFormedID (metadata v)).
Proof.
  split.
  - intros. split; [apply New_preRelease_wf|apply New_metadata_wf].
  - intros raw v Hv.
    destruct (Parse_cases raw)
      as [[_ (e & He & _)]|[_ (n0 & n1 & n2 & prmds & _ & Hok)]];
      [congruence|].
    rewrite Hok in Hv. injection Hv as <-.
    split; [apply New_preRelease_wf|apply New_metadata_wf].
Qed.

Lemma identifiers_wellFormed_witness :
  Forall wellFormedID
    (preRelease (mkVsn 1 0 0 [bytes "rc"; bytes "1"] [bytes "B-7"])) /\
  Forall wellFormedID
    (metadata (mkVsn 1 0 0 [bytes "rc"; bytes "1"] [bytes "B-7"])).
Proof.
  apply (proj2 identifiers_wellFormed (bytes "1.0.0-r_c.01+B-7!")).
  reflexivity.
Defined.

(** C10. The rendering of a constructed version always parses again,
    whatever the integers and the raw tokens, also when identifiers
    sanitize to the empty string; the three numbers are read back. *)
Theorem Parse_String_succeeds (ma mi pa : Z) (prmds : list gostring) :
  isInt ma -> isInt mi -> isInt pa ->
  exists v, Parse (String (New ma mi pa prmds)) = Ok v
            /\ major v = major (New ma mi pa prmds)
            /\ minor v = minor (New ma mi pa prmds)
            /\ patch v = patch (New ma mi pa prmds).
Proof.
  intros H1 H2 H3.
  destruct (New_rendered ma mi pa prmds H1 H2 H3) as (R1 & R2 & R3).
  rewrite (Parse_String _ R1 R2 R3 (New_preRelease_wf ma mi pa prmds)
             (New_metadata_wf ma mi pa prmds)).
  eexists. split; [reflexivity|].
  rewrite (New_eq (major _)). cbn [major minor patch]. lia.
Qed.

Lemma Parse_String_succeeds_witness :
  let prmds := [bytes "!!"; bytes ""; bytes "+"; bytes "+"] in
  isInt (-3) /\
  String (New (-3) 7 0 prmds) = bytes "0.7.0-.+" /\
  exists v, Parse (String (New (-3) 7 0 prmds)) = Ok v
            /\ major v = major (New (-3) 7 0 prmds)
            /\ minor v = minor (New (-3) 7 0 prmds)
            /\ patch v = patch (New (-3) 7 0 prmds).
Proof.
  intros prmds.
  assert (I : forall n, -3 <= n <= 7 -> isInt n)
    by (unfold isInt, minInt, maxInt; lia).
  split; [apply I; lia|]. split; [reflexivity|].
  apply (Parse_String_succeeds (-3) 7 0 prmds); apply I; lia.
Defined.

(** * Further properties of the package [version] *)

Module MoreFacts.

Import Notions.

Lemma less_asym (a b : list gostring) :
  less a b = true -> less b a = false.
Proof.
  revert b. induction a as [|x a IH]; intros b H.
  - now rewrite less_nil_l in H.
  - destruct b as [|y b]; [apply less_nil_l|].
    rewrite less_cons in *. unfold numericLess in *.
    destruct (Atoi x) as [n|ex], (Atoi y) as [m|ey].
    + apply Z.ltb_lt in H. apply Z.ltb_ge. lia.
    + unfold strgt in *. destruct (strlt y x); [discriminate|].
      destruct (strlt x y); [reflexivity|]. now apply IH.
    + unfold strgt in *. destruct (strlt y x); [discriminate|].
      destruct (strlt x y); [reflexivity|]. now apply IH.
    + unfold strgt in *. destruct (strlt y x); [discriminate|].
      destruct (strlt x y); [reflexivity|]. now apply IH.
Qed.

Lemma Atoi_range (s : gostring) (n : Z) : Atoi s = inl n -> isInt n.
Proof.
  unfold Atoi, isInt.
  destruct (match s with
            | [] => (false, s)
            | c :: s' =>
                if Ascii.eqb c "+" then (false, s')
                else if Ascii.eqb c "-" then (true, s') else (false, s)
            end) as [neg body].
  destruct body as [|c body]; [discriminate|].
  destruct (digitsValue 0 (c :: body)) as [un|]; [|discriminate].
  destruct (Z.leb_spec minInt (if neg then - un else un));
    destruct (Z.leb_spec (if neg then - un else un) maxInt);
    simpl; intros E; try discriminate.
  injection E as <-. now split.
Qed.

Lemma digitsValue_digits (s : gostring) (acc n : Z) :
  digitsValue acc s = Some n -> forallb isDigit s = true.
Proof.
  revert acc. induction s as [|c s IH]; intros acc; simpl; [reflexivity|].
  destruct (isDigit c); [apply IH|discriminate].
Qed.

Lemma digitsValue_some (s : gostring) (acc : Z) :
  forallb isDigit s = true -> 0 <= acc ->
  exists n, digitsValue acc s = Some n /\ 0 <= n.
Proof.
  revert acc. induction s as [|c s IH]; intros acc H Hacc;
    cbn [digitsValue forallb] in *.
  - eauto.
  - apply andb_true_iff in H as [Hc Hs]. rewrite Hc. apply IH; [assumption|].
    revert Hc. unfold isDigit. intros Hc. apply andb_true_iff in Hc as [L _].
    apply Z.leb_le in L. lia.
Qed.

(** [Atoi] on a string without sign: the decimal strings are the ones it
    accepts, and their values are not negative. *)
Lemma Atoi_unsigned (s : gostring) :
  ~ In "+"%char s -> ~ In "-"%char s ->
  if isDecimal s then exists n, Atoi s = inl n /\ 0 <= n
  else exists e, Atoi s = inr e.
Proof.
  intros Hp Hm. unfold isDecimal, Atoi.
  destruct s as [|c s']; [eauto|].
  assert (E1 : Ascii.eqb c "+" = false).
  { apply Ascii.eqb_neq. intros ->. apply Hp. now left. }
  assert (E2 : Ascii.eqb c "-" = false).
  { apply Ascii.eqb_neq. intros ->. apply Hm. now left. }
  rewrite E1, E2.
  destruct (forallb isDigit (c :: s')) eqn:D.
  - destruct (digitsValue_some _ 0 D ltac:(lia)) as (n & Hn & Pn).
    rewrite Hn. cbn [andb].
    replace (minInt <=? n) with true
      by (symmetry; apply Z.leb_le; unfold minInt; lia).
    cbn [andb]. destruct (n <=? maxInt); eauto.
  - cbn [andb]. destruct (digitsValue 0 (c :: s')) as [n|] eqn:V; [|eauto].
    apply digitsValue_digits in V. congruence.
Qed.

Lemma In_Split (s comp : gostring) (sep c : ascii) :
  In comp (Split s sep) -> In c comp -> In c s.
Proof.
  revert comp. induction s as [|x s IH]; intros comp; simpl.
  - intros [<-|[]] [].
  - destruct (Ascii.eqb x sep).
    + intros [<-|H] Hc; [easy|]. right. now apply (IH comp).
    + destruct (Split s sep) as [|h t] eqn:E.
      * intros [<-|[]] [->|[]]. now left.
      * intros [<-|H] Hc.
        -- destruct Hc as [->|Hc]; [now left|].
           right. apply (IH h); [now left|assumption].
        -- right. apply (IH comp); [now right|assumption].
Qed.

Lemma In_before (s : gostring) (sep c : ascii) :
  In c (before sep s) -> In c s.
Proof.
  unfold before. induction s as [|x s IH]; simpl; [easy|].
  destruct (Ascii.eqb x sep); simpl; [easy|].
  intros [->|H]; auto.
Qed.

(** No component of the numeric segment carries a sign. *)
Lemma numericSegment_unsigned (raw comp : gostring) :
  In comp (Split (numericSegment raw) ".") ->
  ~ In "+"%char comp /\ ~ In "-"%char comp.
Proof.
  intros Hc. unfold numericSegment in Hc. split; intros H.
  - apply (In_Split _ _ _ _ Hc), In_before in H.
    now apply before_no_sep in H.
  - apply (In_Split _ _ _ _ Hc) in H. now apply before_no_sep in H.
Qed.

Lemma setIndex_Forall (P : Z -> Prop) (l l' : list Z) (i : nat) (x : Z) :
  Forall P l -> P x -> setIndex l i x = Ok l' -> Forall P l'.
Proof.
  intros H. revert i l'. induction H as [|y l Hy Hl IH]; intros i l' Hx E.
  - discriminate.
  - destruct i as [|i]; simpl in E.
    + injection E as <-. now constructor.
    + destruct (setIndex l i x) as [l''| |] eqn:Hset; try discriminate.
      simpl in E. injection E as <-. constructor; [assumption|].
      now apply (IH i).
Qed.

Lemma parseNumberLoop_range (nstrs : list gostring) (i : nat)
  (vsn vsn' : list Z) :
  Forall (fun n => 0 <= n <= maxInt) vsn ->
  parseNumberLoop i nstrs vsn = Ok vsn' ->
  Forall (fun n => 0 <= n <= maxInt) vsn'.
Proof.
  revert i vsn. induction nstrs as [|c nstrs IH]; intros i vsn H E.
  - simpl in E. now injection E as <-.
  - simpl in E. destruct (Atoi c) as [n|e] eqn:A; [|discriminate].
    destruct (Z.ltb_spec n 0); [discriminate|].
    destruct (setIndex vsn i n) as [v1| |] eqn:Hset; try discriminate.
    simpl in E. apply (IH (S i) v1); [|exact E].
    apply (setIndex_Forall _ vsn v1 i n H); [|exact Hset].
    pose proof (Atoi_range _ _ A) as [_ R]. lia.
Qed.

(** The numbers [parseNumberString] returns are non-negative [int]s. *)
Lemma parseNumberString_range (nstr : gostring) (l : list Z) :
  parseNumberString nstr = Ok l -> Forall (fun n => 0 <= n <= maxInt) l.
Proof.
  unfold parseNumberString.
  destruct ((List.length (Split nstr ".") <? 1)%nat
            || (3 <? List.length (Split nstr "."))%nat); [discriminate|].
  apply parseNumberLoop_range.
  repeat constructor; unfold maxInt; lia.
Qed.

(** What [Parse] returns is a constructed version, with the numbers of the
    numeric segment. *)
Lemma Parse_constructed (raw : gostring) (v : vsn) :
  Parse raw = Ok v ->
  exists n0 n1 n2 prmds,
    v = New n0 n1 n2 prmds /\
    0 <= n0 <= maxInt /\ 0 <= n1 <= maxInt /\ 0 <= n2 <= maxInt.
Proof.
  intros Hv.
  destruct (Parse_cases raw)
    as [[_ (e & He & _)]|[_ (n0 & n1 & n2 & prmds & Hn & Hok)]];
    [congruence|].
  rewrite Hok in Hv. injection Hv as <-.
  apply parseNumberString_range in Hn.
  inversion Hn as [|? ? R0 Hn1]; subst.
  inversion Hn1 as [|? ? R1 Hn2]; subst.
  inversion Hn2 as [|? ? R2 _]; subst.
  exists n0, n1, n2, prmds. auto.
Qed.

(** The tokens of [New] around the first marker. *)
Lemma New_marker (ma mi pa : Z) (pre md : list gostring) :
  Forall (fun t => t <> Metadata) pre ->
  New ma mi pa (pre ++ Metadata :: md)
  = mkVsn (Z.max 0 ma) (Z.max 0 mi) (Z.max 0 pa)
      (map (fun t => validID t true) pre)
      (map (fun t => validID t false) md)
  /\
  New ma mi pa pre
  = mkVsn (Z.max 0 ma) (Z.max 0 mi) (Z.max 0 pa)
      (map (fun t => validID t true) pre) [].
Proof.
  intros H.
  assert (H' : Forall (fun t => negb (streq t Metadata) = true) pre).
  { eapply Forall_impl; [|exact H]. intros t Ht.
    destruct (streq t Metadata) eqn:E; [|reflexivity].
    now apply streq_true in E. }
  rewrite !New_eq. unfold prTokens, mdTokens. split.
  - destruct (takeWhile_all _ pre md Metadata H') as [-> ->];
      [now rewrite streq_refl|reflexivity].
  - now destruct (takeWhile_whole _ pre H') as [-> ->].
Qed.

Lemma Split_unmarked (p : gostring) :
  ~ In "+"%char p -> Forall (fun t => t <> Metadata) (segmentTokens p).
Proof.
  intros H. apply Forall_forall. intros t Ht ->.
  apply H. destruct p as [|c p]; [easy|].
  apply (In_Split (c :: p) Metadata "." "+"); [exact Ht|now left].
Qed.

Lemma segmentTokens_eq (p : gostring) :
  (if negb (streq p []) then Split p "." else []) = segmentTokens p.
Proof. now destruct p. Qed.

End MoreFacts.

Import Notions MoreFacts.

(** ** The numbers *)

(** X1. [New] replaces a negative number by 0 and keeps every other one;
    the numbers of a version that [Parse] returns are non-negative
    [int]s. *)
Theorem numbers_never_negative :
  (forall ma mi pa prmds,
      major (New ma mi pa prmds) = Z.max 0 ma /\
      minor (New ma mi pa prmds) = Z.max 0 mi /\
      patch (New ma mi pa prmds) = Z.max 0 pa) /\
  (forall raw v,
      Parse raw = Ok v ->
      0 <= major v <= maxInt /\ 0 <= minor v <= maxInt /\
      0 <= patch v <= maxInt).
Proof.
  split.
  - intros. now rewrite New_eq.
  - intros raw v Hv.
    destruct (Parse_constructed raw v Hv)
      as (n0 & n1 & n2 & prmds & -> & R0 & R1 & R2).
    rewrite New_eq. cbn [major minor patch]. lia.
Qed.

Lemma numbers_never_negative_witness :
  0 <= major (New 0 12 3 [bytes "rc"]) <= maxInt /\
  0 <= minor (New 0 12 3 [bytes "rc"]) <= maxInt /\
  0 <= patch (New 0 12 3 [bytes "rc"]) <= maxInt.
Proof.
  apply (proj2 numbers_never_negative (bytes "0.12.3-rc")). reflexivity.
Defined.

(** X2. [New] cuts its tokens at the first marker ["+"]: the tokens before
    it are the pre-release identifiers, sanitized in numeric mode, and all
    tokens after it the metadata identifiers, sanitized plainly, in their
    order; without marker there is no metadata. A further marker is an
    ordinary metadata token, stored as the empty identifier. *)
Theorem New_cuts_at_first_marker (ma mi pa : Z) (pre md : list gostring) :
  Forall (fun t => t <> Metadata) pre ->
  preRelease (New ma mi pa (pre ++ Metadata :: md))
    = map (fun t => validID t true) pre /\
  metadata (New ma mi pa (pre ++ Metadata :: md))
    = map (fun t => validID t false) md /\
  preRelease (New ma mi pa pre) = map (fun t => validID t true) pre /\
  metadata (New ma mi pa pre) = [] /\
  validID Metadata false = [].
Proof.
  intros H. destruct (New_marker ma mi pa pre md H) as [-> ->].
  repeat split.
Qed.

Lemma New_cuts_at_first_marker_witness :
  preRelease (New 1 0 0 [bytes "rc"; bytes "01"; bytes "+";
                         bytes "a"; bytes "+"; bytes "010"])
    = [bytes "rc"; bytes "1"] /\
  metadata (New 1 0 0 [bytes "rc"; bytes "01"; bytes "+";
                       bytes "a"; bytes "+"; bytes "010"])
    = [bytes "a"; bytes ""; bytes "010"].
Proof.
  destruct (New_cuts_at_first_marker 1 0 0 [bytes "rc"; bytes "01"]
              [bytes "a"; bytes "+"; bytes "010"]) as (H1 & H2 & _).
  - repeat constructor; discriminate.
  - split; [exact H1|exact H2].
Defined.

(** ** The order *)

(** X3. When the number triples differ they decide alone: the version
    with the smaller triple is below the other one and the other one is not
    below it, whatever the identifiers. *)
Theorem Less_by_numbers (a b : vsn) :
  tripleLt a b -> Less a b = true /\ Less b a = false.
Proof.
  unfold tripleLt, Less, Major, Minor, Patch. intros H.
  split; triple_cases.
Qed.

Lemma Less_by_numbers_witness :
  Less (New 1 9 9 []) (New 1 10 0 [bytes "alpha"]) = true /\
  Less (New 1 10 0 [bytes "alpha"]) (New 1 9 9 []) = false.
Proof.
  apply (Less_by_numbers (New 1 9 9 []) (New 1 10 0 [bytes "alpha"])).
  right. split; [reflexivity|]. left. cbn. lia.
Defined.

(** X4. [Less] is asymmetric on constructed versions whose pre-release is
    not the sequence of one empty identifier: of two versions at most one is
    below the other. *)
Theorem Less_asymmetric (a b : vsn) :
  constructed a -> constructed b ->
  preRelease a <> [[]] -> preRelease b <> [[]] ->
  Less a b = true -> Less b a = false.
Proof.
  intros Ha Hb Na Nb.
  destruct (constructed_wf a Ha) as [Wa _].
  destruct (constructed_wf b Hb) as [Wb _].
  rewrite (Less_eq a b Wb Nb), (Less_eq b a Wa Na).
  intros H. triple_cases. now apply less_asym.
Qed.

Lemma Less_asymmetric_witness :
  Less (New 1 0 0 [bytes "rc"; bytes "1"])
       (New 1 0 0 [bytes "rc"; bytes "2"]) = true /\
  Less (New 1 0 0 [bytes "rc"; bytes "2"])
       (New 1 0 0 [bytes "rc"; bytes "1"]) = false.
Proof.
  assert (I : forall n, 0 <= n <= 1 -> isInt n)
    by (unfold isInt, minInt, maxInt; lia).
  split; [reflexivity|].
  apply (Less_asymmetric (New 1 0 0 [bytes "rc"; bytes "1"])
           (New 1 0 0 [bytes "rc"; bytes "2"])).
  - exists 1, 0, 0, [bytes "rc"; bytes "1"].
    repeat split; try reflexivity; apply I; lia.
  - exists 1, 0, 0, [bytes "rc"; bytes "2"].
    repeat split; try reflexivity; apply I; lia.
  - vm_compute. discriminate.
  - vm_compute. discriminate.
  - reflexivity.
Defined.

(** X5. Against a version without pre-release and with the same numbers,
    a version is below exactly when it has pre-release identifiers; the
    version without pre-release is never below. *)
Theorem Less_final_release (a b : vsn) :
  major a = major b -> minor a = minor b -> patch a = patch b ->
  preRelease b = [] ->
  Less a b = (0 <? List.length (preRelease a))%nat /\ Less b a = false.
Proof.
  intros H1 H2 H3 Hb. unfold Less, Major, Minor, Patch, PreRelease.
  rewrite H1, H2, H3, Hb, !Z.ltb_irrefl. cbn [Join List.length Nat.ltb Nat.leb].
  split; [apply less_nil_r|apply less_nil_l].
Qed.

Lemma Less_final_release_witness :
  Less (New 2 0 0 [bytes "beta"; bytes "+"; bytes "x"])
       (New 2 0 0 [bytes "+"; bytes "y"]) = true /\
  Less (New 2 0 0 [bytes "+"; bytes "y"])
       (New 2 0 0 [bytes "beta"; bytes "+"; bytes "x"]) = false.
Proof.
  apply (Less_final_release
           (New 2 0 0 [bytes "beta"; bytes "+"; bytes "x"])
           (New 2 0 0 [bytes "+"; bytes "y"])); reflexivity.
Defined.

(** X6. Metadata takes no part in the order: the tokens after the marker
    can be changed or left out on either side without changing [Less]. *)
Theorem Less_ignores_metadata
  (ma mi pa ma' mi' pa' : Z) (pre md pre' md' : list gostring) :
  Forall (fun t => t <> Metadata) pre ->
  Forall (fun t => t <> Metadata) pre' ->
  Less (New ma mi pa (pre ++ Metadata :: md))
       (New ma' mi' pa' (pre' ++ Metadata :: md'))
  = Less (New ma mi pa pre) (New ma' mi' pa' pre').
Proof.
  intros H H'.
  destruct (New_marker ma mi pa pre md H) as [-> ->].
  destruct (New_marker ma' mi' pa' pre' md' H') as [-> ->].
  reflexivity.
Qed.

Lemma Less_ignores_metadata_witness :
  Less (New 1 0 0 [bytes "a"; bytes "+"; bytes "zzz"])
       (New 1 0 0 [bytes "b"; bytes "+"; bytes "aaa"])
  = Less (New 1 0 0 [bytes "a"]) (New 1 0 0 [bytes "b"]).
Proof.
  apply (Less_ignores_metadata 1 0 0 1 0 0
           [bytes "a"] [bytes "zzz"] [bytes "b"] [bytes "aaa"]);
    repeat constructor; discriminate.
Defined.

(** ** The sanitizer, again *)

Lemma digitsValue_dropWhile (k : gostring) :
  digitsValue 0 (dropWhile (Ascii.eqb "0") k) = digitsValue 0 k.
Proof.
  induction k as [|c k IH]; [reflexivity|].
  cbn [dropWhile]. destruct (Ascii.eqb_spec "0"%char c) as [<-|N];
    [|reflexivity].
  rewrite IH. reflexivity.
Qed.

Lemma length_dropWhile {A : Type} (p : A -> bool) (l : list A) :
  (List.length (dropWhile p l) <= List.length l)%nat.
Proof.
  induction l as [|x l IH]; simpl; [lia|]. destruct (p x); simpl; lia.
Qed.

Lemma length_filter {A : Type} (p : A -> bool) (l : list A) :
  (List.length (filter p l) <= List.length l)%nat.
Proof.
  induction l as [|x l IH]; simpl; [lia|]. destruct (p x); simpl; lia.
Qed.

(** X7. In numeric mode a token whose kept characters are digits only
    keeps its numeric value: the result is a string of digits with the same
    decimal value, and it starts with ['0'] only when it is ["0"]. *)
Theorem validID_numeric_value (id : gostring) :
  forallb isDigit (filter permitted id) = true ->
  filter permitted id <> [] ->
  digitsValue 0 (validID id true) = digitsValue 0 (filter permitted id) /\
  forallb isDigit (validID id true) = true /\
  validID id true <> [] /\
  (hd_error (validID id true) = Some "0"%char ->
   validID id true = ["0"%char]).
Proof.
  intros Hd Hne. rewrite validID_sanitize. unfold sanitize.
  rewrite Hd, (length_pos _ Hne). cbn [andb].
  repeat apply conj.
  - unfold stripLeadingZeros.
    rewrite <- (digitsValue_dropWhile (filter permitted id)).
    now destruct (dropWhile (Ascii.eqb "0") (filter permitted id)).
  - now apply strip_digits.
  - apply strip_not_nil.
  - unfold stripLeadingZeros.
    destruct (leading_zeros (filter permitted id)) as (z & _ & Hhd).
    destruct (dropWhile (Ascii.eqb "0") (filter permitted id));
      [reflexivity|]. intros H. contradiction.
Qed.

Lemma validID_numeric_value_witness :
  digitsValue 0 (validID (bytes "0.0_42") true) = Some 42 /\
  validID (bytes "0.0_42") true = bytes "42".
Proof.
  destruct (validID_numeric_value (bytes "0.0_42")) as (H & _).
  - reflexivity.
  - vm_compute. discriminate.
  - split; [rewrite H|]; reflexivity.
Defined.

(** X8. Sanitizing is idempotent in either mode, plain mode leaves every
    sanitized identifier alone, and the result is never longer than the
    token. *)
Theorem validID_idempotent (id : gostring) (numeric : bool) :
  validID (validID id numeric) numeric = validID id numeric /\
  validID (validID id numeric) false = validID id numeric /\
  (List.length (validID id numeric) <= List.length id)%nat.
Proof.
  split; [apply validID_idem|split].
  - rewrite (validID_sanitize (validID id numeric)). unfold sanitize.
    cbn [andb]. apply filter_wf, validID_wf.
  - rewrite validID_sanitize. unfold sanitize.
    pose proof (length_filter permitted id) as L.
    destruct (numeric && forallb isDigit (filter permitted id)
              && (0 <? List.length (filter permitted id))%nat) eqn:C;
      [|assumption].
    apply andb_true_iff in C as [_ C]. apply Nat.ltb_lt in C.
    unfold stripLeadingZeros.
    pose proof (length_dropWhile (Ascii.eqb "0") (filter permitted id)) as D.
    destruct (dropWhile (Ascii.eqb "0") (filter permitted id));
      simpl in *; lia.
Qed.

(** ** Parsing, again *)

(** X9. The rendering of a parsed version is a fixed point: parsing it
    gives the same version again, unless the pre-release or the metadata of
    the version is the sequence of one empty identifier. *)
Theorem Parse_String_fixed_point (raw : gostring) (v : vsn) :
  Parse raw = Ok v ->
  preRelease v <> [[]] -> metadata v <> [[]] ->
  Parse (String v) = Ok v.
Proof.
  intros Hv Npre Nmeta.
  destruct (Parse_constructed raw v Hv)
    as (n0 & n1 & n2 & prmds & -> & R0 & R1 & R2).
  apply Parse_String_New; try assumption;
    unfold isInt, minInt, maxInt in *; lia.
Qed.

Lemma Parse_String_fixed_point_witness :
  exists v,
    Parse (bytes "01.2-r_c.007+b!.-") = Ok v /\
    String v = bytes "1.2.0-rc.7+b.-" /\
    Parse (String v) = Ok v.
Proof.
  eexists. split; [reflexivity|]. split; [reflexivity|].
  apply (Parse_String_fixed_point (bytes "01.2-r_c.007+b!.-")).
  - reflexivity.
  - vm_compute. discriminate.
  - vm_compute. discriminate.
Defined.

(** X10. Without a numeric segment there is no version: the empty string
    and every string that starts with ["-"] or ["+"] is refused, with the
    code of the package. *)
Theorem Parse_needs_numbers (rest : gostring) :
  (exists e, Parse [] = Err e
             /\ Errors.IsError e ErrIllegalVersionFormat = true) /\
  (exists e, Parse ("-"%char :: rest) = Err e
             /\ Errors.IsError e ErrIllegalVersionFormat = true) /\
  (exists e, Parse ("+"%char :: rest) = Err e
             /\ Errors.IsError e ErrIllegalVersionFormat = true).
Proof.
  assert (H : forall raw, numericSegment raw = [] ->
            exists e, Parse raw = Err e
                      /\ Errors.IsError e ErrIllegalVersionFormat = true).
  { intros raw Hn.
    destruct (Parse_cases raw) as [[_ (e & He & Hc)]|[G _]].
    - exists e. split; [assumption|].
      unfold Errors.IsError. now rewrite Hc.
    - exfalso. apply G. right. unfold illegalFormat. rewrite Hn.
      apply Exists_cons_hd. exact I. }
  repeat split; apply H; reflexivity.
Qed.

(** X11. [Parse] accepts exactly the strings whose numeric segment is one,
    two or three dot-separated decimal numbers: every component a non-empty
    string of digits (leading zeros allowed, no sign) with a value that fits
    an [int]. What follows the first ["-"] or ["+"] never matters. *)
Theorem Parse_accepts_decimals (raw : gostring) :
  (exists v, Parse raw = Ok v) <->
  (List.length (Split (numericSegment raw) ".") <= 3)%nat /\
  Forall (fun c => isDecimal c = true) (Split (numericSegment raw) ".").
Proof.
  assert (B : forall c, In c (Split (numericSegment raw) ".") ->
                        (badComponent c <-> isDecimal c = false)).
  { intros c Hc. destruct (numericSegment_unsigned raw c Hc) as [Hp Hm].
    pose proof (Atoi_unsigned c Hp Hm) as A. unfold badComponent.
    destruct (isDecimal c).
    - destruct A as (n & -> & Pn). split; [lia|discriminate].
    - destruct A as (e & ->). now split. }
  destruct (Parse_cases raw)
    as [[Bad (e & He & _)]|[Good (n0 & n1 & n2 & prmds & _ & Hok)]].
  - split.
    + intros (v & Hv). congruence.
    + intros [Hlen Hall]. exfalso. destruct Bad as [L|E]; [lia|].
      apply Exists_exists in E as (c & Hc & Hb).
      rewrite Forall_forall in Hall. specialize (Hall c Hc).
      apply (B c Hc) in Hb. congruence.
  - split; [intros _|eauto]. split.
    + destruct (Nat.le_gt_cases
                  (List.length (Split (numericSegment raw) ".")) 3);
        [assumption|]. exfalso. apply Good. now left.
    + apply Forall_forall. intros c Hc.
      destruct (isDecimal c) eqn:D; [reflexivity|]. exfalso.
      apply Good. right. apply Exists_exists. exists c.
      split; [assumption|]. now apply (B c Hc).
Qed.

Lemma Parse_accepts_decimals_witness :
  (exists v, Parse (bytes "007.0-+-.x") = Ok v) /\
  ~ (exists v, Parse (bytes "1..2") = Ok v).
Proof.
  split.
  - apply (proj2 (Parse_accepts_decimals (bytes "007.0-+-.x"))).
    split; [vm_compute; lia|]. repeat constructor.
  - intros H.
    apply (proj1 (Parse_accepts_decimals (bytes "1..2"))) in H.
    destruct H as [_ H]. inversion H as [|? ? _ H']; subst.
    inversion H' as [|? ? D _]; subst. discriminate D.
Defined.

(** The identifiers of a parsed version, from the three pieces of the raw
    string. *)
Lemma Parse_pieces (raw n p m : gostring) (v : vsn) :
  splitVersionString raw = Ok [n; p; m] -> ~ In "+"%char p ->
  Parse raw = Ok v ->
  preRelease v = map (fun t => validID t true) (segmentTokens p) /\
  metadata v = map (fun t => validID t false) (segmentTokens m).
Proof.
  intros HS Hp. unfold Parse. rewrite HS. cbn [bind].
  destruct (parseNumberString n) as [nums|e|]; cbn [bind]; try discriminate.
  destruct nums as [|n0 [|n1 [|n2 [|? ?]]]]; try discriminate.
  rewrite (segmentTokens_eq p). intros E. injection E as <-.
  pose proof (Split_unmarked p Hp) as U.
  destruct m as [|c m'].
  - cbn [streq negb]. now destruct (New_marker n0 n1 n2 _ [] U) as [_ ->].
  - cbn [streq negb]. rewrite <- app_assoc. cbn [app].
    now destruct (New_marker n0 n1 n2 _ (Split (c :: m') ".") U) as [-> _].
Qed.

(** X12. Where the identifiers of a parsed version come from: the text
    between the first ["-"] and the first ["+"] gives the pre-release
    identifiers and the text after the first ["+"] the metadata identifiers,
    each split at the dots and sanitized; an empty text gives none. A ["-"]
    after the first ["+"] belongs to the metadata, and so does every further
    ["+"] (which sanitizing then drops). *)
Theorem Parse_identifiers (n p m : gostring) (v : vsn) :
  ~ In "-"%char n -> ~ In "+"%char n -> ~ In "+"%char p ->
  (Parse (n ++ "-"%char :: p ++ "+"%char :: m) = Ok v ->
   preRelease v = map (fun t => validID t true) (segmentTokens p) /\
   metadata v = map (fun t => validID t false) (segmentTokens m)) /\
  (Parse (n ++ "+"%char :: m) = Ok v ->
   preRelease v = [] /\
   metadata v = map (fun t => validID t false) (segmentTokens m)) /\
  (Parse (n ++ "-"%char :: p) = Ok v ->
   preRelease v = map (fun t => validID t true) (segmentTokens p) /\
   metadata v = []) /\
  (Parse n = Ok v -> preRelease v = [] /\ metadata v = []).
Proof.
  intros Hn1 Hn2 Hp. repeat apply conj.
  - apply (Parse_pieces _ n p m); [|assumption].
    apply (splitVersionString_parts _ (n ++ "-"%char :: p)).
    + replace (n ++ "-"%char :: p ++ "+"%char :: m)
        with ((n ++ "-"%char :: p) ++ "+"%char :: m)
        by (now rewrite <- app_assoc).
      rewrite Cut_app; [reflexivity|].
      rewrite in_app_iff. intros [H|[H|H]]; [tauto|discriminate|tauto].
    + now rewrite Cut_app.
  - apply (Parse_pieces _ n [] m); [|easy].
    apply (splitVersionString_parts _ n).
    + now rewrite Cut_app.
    + now rewrite Cut_no_sep.
  - apply (Parse_pieces _ n p []); [|assumption].
    apply (splitVersionString_parts _ (n ++ "-"%char :: p)).
    + rewrite Cut_no_sep; [reflexivity|].
      rewrite in_app_iff. intros [H|[H|H]]; [tauto|discriminate|tauto].
    + now rewrite Cut_app.
  - apply (Parse_pieces _ n [] []); [|easy].
    apply (splitVersionString_parts _ n); now rewrite Cut_no_sep.
Qed.

Lemma Parse_identifiers_witness :
  exists v,
    Parse (bytes "1.2" ++ "-"%char :: bytes "rc.01" ++ "+"%char
             :: bytes "b-1.+x") = Ok v /\
    preRelease v = [bytes "rc"; bytes "1"] /\
    metadata v = [bytes "b-1"; bytes "x"].
Proof.
  eexists. split; [reflexivity|].
  apply (proj1 (Parse_identifiers (bytes "1.2") (bytes "rc.01")
                  (bytes "b-1.+x") _
                  ltac:(vm_compute; intuition discriminate)
                  ltac:(vm_compute; intuition discriminate)
                  ltac:(vm_compute; intuition discriminate))).
  reflexivity.
Defined.

(** * Properties of the package [errors] *)

Module ErrorsFacts.

Import ErrorsPkg.

Section Runtime.

Variable Sprintf : gostring -> list arg -> gostring.
Variable ToUpper : gostring -> gostring.

(** An error that was created is a box around the wrapped error, with the
    code it was created with. *)
Lemma newErrorBox_Done (caller : frame) (err : error) (code : Z)
  (msgs : Messages) (args : list arg) (e : error) :
  newErrorBox Sprintf ToUpper caller err code msgs args = Done e ->
  exists info,
    retrieveCallInfo ToUpper caller = Done info /\
    e = errorBox err code (Format Sprintf msgs code args) info.
Proof.
  unfold newErrorBox.
  destruct (retrieveCallInfo ToUpper caller) as [info|]; [|discriminate].
  simpl. intros E. injection E as <-. eauto.
Qed.

Lemma newErrorBox_Panics (caller : frame) (err : error) (code : Z)
  (msgs : Messages) (args : list arg) :
  newErrorBox Sprintf ToUpper caller err code msgs args = Panics <->
  retrieveCallInfo ToUpper caller = Panics.
Proof.
  unfold newErrorBox.
  now destruct (retrieveCallInfo ToUpper caller) as [info|].
Qed.

End Runtime.


Lemma fold_collect (l seen : list error) :
  fold_left (fun s aerr => s ++ [aerr]) l seen = seen ++ l.
Proof.
  revert seen. induction l as [|x l IH]; intros seen; simpl.
  - now rewrite app_nil_r.
  - rewrite IH, <- app_assoc. reflexivity.
Qed.


End ErrorsFacts.

Import ErrorsPkg ErrorsFacts.

(** X13. Wrapping and unwrapping: an error made by [Annotate] is valid,
    has the code it was made with and no other, gives back the wrapped
    error through [Annotated], and its stack is itself followed by the stack
    of the wrapped error. [New] is [Annotate] around the nil error. *)
Theorem Annotate_Annotated
  (Sprintf : gostring -> list arg -> gostring)
  (ToUpper : gostring -> gostring)
  (caller caller' : frame) (err e : error) (code : Z)
  (msgs : Messages) (args : list arg) :
  Annotate Sprintf ToUpper caller err code msgs args = Done e ->
  Valid e = true /\
  (forall c, IsError e c = (code =? c)) /\
  Annotated Sprintf ToUpper caller' e = Done err /\
  Stack e = e :: Stack err /\
  New Sprintf ToUpper caller code msgs args
  = Annotate Sprintf ToUpper caller nilError code msgs args.
Proof.
  unfold Annotate. intros H.
  destruct (newErrorBox_Done _ _ _ _ _ _ _ _ H) as (info & _ & ->).
  repeat split.
Qed.

Lemma Annotate_Annotated_witness :
  let fr := mkFrame (bytes "/src/version/version.go") 301
              (bytes "github.com/tideland/golib/version.parseNumberString") in
  let cause := otherError (bytes "strconv.Atoi: parsing: invalid syntax") in
  exists e,
    Annotate (fun f _ => f) (fun s => s) fr cause 1 None [] = Done e /\
    IsError e 1 = true /\ IsError e 2 = false /\
    Annotated (fun f _ => f) (fun s => s) fr e = Done cause /\
    Stack e = [e; cause].
Proof.
  intros fr cause. eexists. split; [reflexivity|].
  match goal with
  | |- IsError ?x _ = _ /\ _ =>
      destruct (Annotate_Annotated (fun f _ => f) (fun s => s)
                  fr fr cause x 1 None [] eq_refl)
        as (_ & Hc & Ha & Hs & _)
  end.
  rewrite !Hc. repeat split; assumption.
Defined.



(** X15. The two ready-made errors are recognised by their own test and by
    neither of the other two tests of the package. *)
Theorem predefined_errors_recognised
  (Sprintf : gostring -> list arg -> gostring)
  (ToUpper : gostring -> gostring)
  (caller : frame) (feature : gostring) (e : error) :
  (NotYetImplementedError Sprintf ToUpper caller feature = Done e ->
   IsNotYetImplementedError e = true /\ IsDeprecatedError e = false /\
   IsInvalidTypeError e = false) /\
  (DeprecatedError Sprintf ToUpper caller feature = Done e ->
   IsDeprecatedError e = true /\ IsNotYetImplementedError e = false /\
   IsInvalidTypeError e = false).
Proof.
  unfold NotYetImplementedError, DeprecatedError, New.
  split; intros H;
    destruct (newErrorBox_Done _ _ _ _ _ _ _ _ H) as (info & _ & ->);
    repeat split.
Qed.

Lemma predefined_errors_recognised_witness :
  let fr := mkFrame (bytes "main.go") 3 (bytes "main.main") in
  exists e,
    NotYetImplementedError (fun f _ => f) (fun s => s) fr (bytes "x")
    = Done e /\
    IsNotYetImplementedError e = true /\ IsDeprecatedError e = false /\
    IsInvalidTypeError e = false.
Proof.
  intros fr. eexists. split; [reflexivity|].
  apply (proj1 (predefined_errors_recognised (fun f _ => f) (fun s => s)
                  fr (bytes "x") _)).
  reflexivity.
Defined.

(** X16. Asking for the annotated error or the location of a value that is
    no error box (the nil error, a collection, an error of another package)
    does not fail: it creates an invalid-type error, alone as result of
    [Annotated], beside empty names and line 0 as result of [Location]. An
    error box gives its wrapped error, and its package name, file name and
    line with a nil error. *)
Theorem invalid_type_errors
  (Sprintf : gostring -> list arg -> gostring)
  (ToUpper : gostring -> gostring)
  (caller : frame) (err : error) :
  (Valid err = false ->
   (forall e, Annotated Sprintf ToUpper caller err = Done e ->
              IsInvalidTypeError e = true /\ Stack e = [e; nilError]) /\
   (forall r, Location Sprintf ToUpper caller err = Done r ->
              exists e, r = ([], [], 0, e) /\ IsInvalidTypeError e = true)) /\
  (forall e code msg info,
      err = errorBox e code msg info ->
      Annotated Sprintf ToUpper caller err = Done e /\
      Location Sprintf ToUpper caller err
      = Done (packageName info, fileName info, line info, nilError)).
Proof.
  split.
  - intros Hv. split.
    + intros e H.
      assert (N : New Sprintf ToUpper caller ErrInvalidErrorType errorMessages
                    [argError err; argError err] = Done e)
        by (destruct err; try discriminate; exact H).
      destruct (newErrorBox_Done _ _ _ _ _ _ _ _ N) as (info & _ & ->).
      now split.
    + intros r H.
      assert (N : (e <~ New Sprintf ToUpper caller ErrInvalidErrorType
                          errorMessages [argError err; argError err] ;;
                   Done ([], [], 0, e)) = Done r)
        by (destruct err; try discriminate; exact H).
      destruct (New Sprintf ToUpper caller ErrInvalidErrorType errorMessages
                  [argError err; argError err]) as [e|] eqn:E;
        [|discriminate].
      simpl in N. injection N as <-.
      destruct (newErrorBox_Done _ _ _ _ _ _ _ _ E) as (info & _ & ->).
      eexists. split; reflexivity.
  - intros e code msg info ->. split; reflexivity.
Qed.

Lemma invalid_type_errors_witness :
  let fr := mkFrame (bytes "errors.go") 142
              (bytes "github.com/tideland/golib/errors.Annotated") in
  exists e,
    Annotated (fun f _ => f) (fun s => s) fr nilError = Done e /\
    IsInvalidTypeError e = true /\ Stack e = [e; nilError].
Proof.
  intros fr. eexists. split; [reflexivity|].
  apply (proj1 (proj1 (invalid_type_errors (fun f _ => f) (fun s => s)
                         fr nilError) eq_refl)).
  reflexivity.
Defined.

(** X17. Collecting: [All] gives back the collected errors, as they are and
    in their order, and [DoAll] calls its function on each of them once,
    without unwinding a member that is a box. A collection is not a valid
    error of the package and has no code, whatever its members are. Any
    other value is its own single entry. *)
Theorem Collect_All (errs : list error) :
  All (Collect errs) = errs /\
  DoAll (Collect errs) (fun e (seen : list error) => seen ++ [e]) [] = errs /\
  Valid (Collect errs) = false /\
  (forall code, IsError (Collect errs) code = false) /\
  Stack (Collect errs) = [Collect errs] /\
  (forall err, (forall l, err <> errorCollection l) -> All err = [err]).
Proof.
  repeat apply conj; try reflexivity.
  - unfold DoAll, Collect, All. apply fold_collect.
  - intros err H. destruct err; try reflexivity. now elim (H errs0).
Qed.

(** ** The call information *)

Module CallInfoFacts.

Import Strings StringsFacts.



(** A string with the separator splits into two parts at least. *)
Lemma Split_two (s : gostring) (sep : ascii) :
  In sep s -> (2 <= List.length (Split s sep))%nat.
Proof.
  induction s as [|c s IH]; [easy|].
  cbn [Split]. destruct (Ascii.eqb_spec c sep) as [->|N].
  - intros _. pose proof (Split_not_nil s sep).
    destruct (Split s sep); [contradiction|simpl; lia].
  - intros [H|H]; [contradiction|]. specialize (IH H).
    destruct (Split s sep); simpl in *; lia.
Qed.

Lemma two_last {A : Type} (l : list A) :
  (2 <= List.length l)%nat -> exists pre q f, l = pre ++ [q; f].
Proof.
  destruct l as [|x l] using rev_ind; [simpl; lia|].
  destruct l as [|y l] using rev_ind.
  - simpl. lia.
  - intros _. exists l, y, x. now rewrite <- app_assoc.
Qed.

Lemma at_last {A : Type} (pre : list A) (q f : A) :
  at_ (pre ++ [q; f]) (Z.of_nat (List.length (pre ++ [q; f])) - 1) = Done f /\
  at_ (pre ++ [q; f]) (Z.of_nat (List.length (pre ++ [q; f])) - 2) = Done q /\
  upTo (pre ++ [q; f]) (Z.of_nat (List.length (pre ++ [q; f])) - 2)
  = Done pre /\
  upTo (pre ++ [q; f]) (Z.of_nat (List.length (pre ++ [q; f])) - 1)
  = Done (pre ++ [q]).
Proof.
  rewrite length_app. cbn [List.length].
  unfold at_, upTo. rewrite length_app. cbn [List.length].
  replace (Z.of_nat (List.length pre + 2) - 1)
    with (Z.of_nat (List.length pre + 1)) by lia.
  replace (Z.of_nat (List.length pre + 2) - 2)
    with (Z.of_nat (List.length pre)) by lia.
  rewrite !Nat2Z.id.
  repeat match goal with
    | |- context [?a <? ?b] => destruct (Z.ltb_spec a b); try lia
    end.
  cbn [orb]. repeat apply conj.
  - rewrite nth_error_app2 by lia.
    replace (List.length pre + 1 - List.length pre)%nat with 1%nat by lia.
    reflexivity.
  - rewrite nth_error_app2 by lia. now rewrite Nat.sub_diag.
  - rewrite firstn_app, Nat.sub_diag, firstn_all. simpl.
    now rewrite app_nil_r.
  - replace [q; f] with ([q] ++ [f]) by reflexivity.
    rewrite app_assoc.
    replace (List.length pre + 1)%nat with (List.length (pre ++ [q]))
      by (rewrite length_app; reflexivity).
    rewrite firstn_app, Nat.sub_diag, firstn_all. simpl.
    now rewrite app_nil_r.
Qed.

Lemma at_end {A : Type} (l : list A) (d : A) :
  l <> [] ->
  at_ l (Z.of_nat (List.length l) - 1) = Done (last l d).
Proof.
  destruct l as [|x l] using rev_ind; [easy|]. intros _.
  rewrite last_last. unfold at_. rewrite length_app. cbn [List.length].
  destruct (Z.ltb_spec (Z.of_nat (List.length l + 1) - 1) 0); [lia|].
  replace (Z.to_nat (Z.of_nat (List.length l + 1) - 1))
    with (List.length l) by lia.
  rewrite nth_error_app2 by lia. now rewrite Nat.sub_diag.
Qed.

Section Runtime.

Variable ToUpper : gostring -> gostring.

(** [retrieveCallInfo], case by case on the parts of the function name. *)
Lemma retrieveCallInfo_one (caller : frame) (f : gostring) :
  Split (name caller) "." = [f] ->
  retrieveCallInfo ToUpper caller = Panics.
Proof. intros H. unfold retrieveCallInfo. now rewrite H. Qed.

Lemma retrieveCallInfo_parts (caller : frame) (pre : list gostring)
  (q f : gostring) :
  Split (name caller) "." = pre ++ [q; f] ->
  retrieveCallInfo ToUpper caller =
  match q with
  | [] => Panics
  | c :: _ =>
      let '(fn, pn) :=
        if ord c =? ord "("
        then (q ++ ["."%char] ++ f, Join pre ["."%char])
        else (f, Join (pre ++ [q]) ["."%char]) in
      Done (mkCallInfo pn (ToUpper (last (Split pn "/") []))
              (last (Split (file caller) "/") []) fn (frameLine caller))
  end.
Proof.
  intros H. unfold retrieveCallInfo. rewrite H.
  destruct (at_last pre q f) as (-> & -> & -> & ->). cbn [andThen].
  destruct q as [|c q']; [reflexivity|].
  change (at_ (c :: q') 0) with (Done c). cbn [andThen].
  destruct (ord c =? ord "("); cbn [andThen];
    now rewrite (at_end (A:=gostring) _ []) by apply Split_not_nil.
Qed.

End Runtime.

End CallInfoFacts.

Import CallInfoFacts.



(** X19. Creating an error panics exactly when the function name the
    runtime reports has no dot, or has nothing between its last two dots
    (nothing before its only dot): then [retrieveCallInfo] indexes outside
    its parts. In every other case [New] returns an error. *)
Theorem New_panics
  (Sprintf : gostring -> list arg -> gostring)
  (ToUpper : gostring -> gostring)
  (caller : frame) (code : Z) (msgs : Messages) (args : list arg) :
  (New Sprintf ToUpper caller code msgs args = Panics <->
   ~ In "."%char (name caller) \/
   exists pre f, Strings.Split (name caller) "." = pre ++ [[]; f]) /\
  (New Sprintf ToUpper caller code msgs args <> Panics ->
   exists e, New Sprintf ToUpper caller code msgs args = Done e).
Proof.
  split; [|destruct (New Sprintf ToUpper caller code msgs args); eauto;
           intros H; now elim H].
  unfold New. rewrite newErrorBox_Panics. split.
  - intros H.
    destruct (Nat.le_gt_cases 2
                (List.length (Strings.Split (name caller) "."))) as [L|L].
    + destruct (two_last _ L) as (pre & q & f & E).
      rewrite (retrieveCallInfo_parts ToUpper caller pre q f E) in H.
      destruct q as [|c q']; [right; eauto|].
      now destruct (ord c =? ord "(").
    + left. intros Hin. apply Split_two in Hin. lia.
  - intros [H|(pre & f & E)].
    + apply (retrieveCallInfo_one ToUpper caller (name caller)).
      now apply StringsFacts.Split_no_sep.
    + now rewrite (retrieveCallInfo_parts ToUpper caller pre [] f E).
Qed.

Lemma New_panics_witness :
  New (fun f _ => f) (fun s => s)
      (mkFrame (bytes "x.go") 1 (bytes "main")) 1 None [] = Panics /\
  New (fun f _ => f) (fun s => s)
      (mkFrame (bytes "x.go") 1 (bytes "pkg..f")) 1 None [] = Panics /\
  exists e, New (fun f _ => f) (fun s => s)
              (mkFrame (bytes "x.go") 1 (bytes "pkg.f")) 1 None [] = Done e.
Proof.
  repeat apply conj.
  - apply (proj1 (New_panics _ _ _ _ _ _)). left.
    vm_compute. intuition discriminate.
  - apply (proj1 (New_panics _ _ _ _ _ _)). right.
    exists [bytes "pkg"], (bytes "f"). reflexivity.
  - apply (proj2 (New_panics _ _ _ _ _ _)). discriminate.
Defined.

(** * Properties of the error codes of the package [scene] *)

Import Scene.

(** X20. The six tests of the package [scene] exclude each other: no
    error value passes two of them, and a value that is no error box passes
    none. An error created with a code passes exactly the test of that
    code. *)
Theorem scene_tests_exclusive
  (Sprintf : gostring -> list arg -> gostring)
  (ToUpper : gostring -> gostring)
  (caller : frame) (code : Z) (msgs : Messages) (args : list arg)
  (err : error) :
  (List.length
     (filter (fun test => test err)
        [IsSceneEndedError; IsTimeoutError; IsPropAlreadyExistError;
         IsPropNotFoundError; IsCleanupFailedError; IsWaitedTooLongError])
   <= 1)%nat /\
  (Valid err = false ->
   filter (fun test => test err)
     [IsSceneEndedError; IsTimeoutError; IsPropAlreadyExistError;
      IsPropNotFoundError; IsCleanupFailedError; IsWaitedTooLongError]
   = []) /\
  (ErrorsPkg.New Sprintf ToUpper caller code msgs args = Done err ->
   map (fun test => test err)
     [IsSceneEndedError; IsTimeoutError; IsPropAlreadyExistError;
      IsPropNotFoundError; IsCleanupFailedError; IsWaitedTooLongError]
   = map (Z.eqb code)
       [ErrSceneEnded; ErrTimeout; ErrPropAlreadyExist;
        ErrPropNotFound; ErrCleanupFailed; ErrWaitedTooLong]).
Proof.
  repeat apply conj.
  - destruct err as [|e c msg info|errs|t]; try (simpl; lia).
    unfold IsSceneEndedError, IsTimeoutError, IsPropAlreadyExistError,
      IsPropNotFoundError, IsCleanupFailedError, IsWaitedTooLongError,
      ErrSceneEnded, ErrTimeout, ErrPropAlreadyExist, ErrPropNotFound,
      ErrCleanupFailed, ErrWaitedTooLong.
    cbn [filter IsError].
    destruct (Z.eqb_spec c 1), (Z.eqb_spec c 2), (Z.eqb_spec c 3),
      (Z.eqb_spec c 4), (Z.eqb_spec c 5), (Z.eqb_spec c 6);
      try lia; simpl; lia.
  - now destruct err.
  - unfold ErrorsPkg.New. intros H.
    destruct (newErrorBox_Done _ _ _ _ _ _ _ _ H) as (info & _ & ->).
    reflexivity.
Qed.

Lemma scene_tests_exclusive_witness :
  let fr := mkFrame (bytes "scene.go") 9
              (bytes "github.com/tideland/golib/scene.(*scene).Store") in
  exists err,
    ErrorsPkg.New (fun f _ => f) (fun s => s) fr ErrPropNotFound
      Scene.errorMessages [argString (bytes "k")] = Done err /\
    IsPropNotFoundError err = true /\ IsTimeoutError err = false.
Proof.
  intros fr. eexists. split; [reflexivity|].
  match goal with
  | |- IsPropNotFoundError ?x = _ /\ _ =>
      destruct (scene_tests_exclusive (fun f _ => f) (fun s => s) fr
                  ErrPropNotFound Scene.errorMessages
                  [argString (bytes "k")] x) as (_ & _ & H)
  end.
  specialize (H eq_refl).
  split.
  - exact (f_equal (fun l => nth 3 l false) H).
  - exact (f_equal (fun l => nth 1 l true) H).
Defined.

(** X21. The tests look at the number of the code only, not at the
    package the error comes from: the packages number their codes from 1
    each, so the not-yet-implemented error of the package [errors] passes
    the timeout test of [scene], its deprecation error the
    property-already-exists test, and its invalid-type error the
    scene-ended test. *)
Theorem codes_shared_between_packages
  (Sprintf : gostring -> list arg -> gostring)
  (ToUpper : gostring -> gostring)
  (caller : frame) (feature : gostring) (err e : error) :
  (NotYetImplementedError Sprintf ToUpper caller feature = Done e ->
   IsTimeoutError e = true) /\
  (DeprecatedError Sprintf ToUpper caller feature = Done e ->
   IsPropAlreadyExistError e = true) /\
  (Valid err = false -> Annotated Sprintf ToUpper caller err = Done e ->
   IsSceneEndedError e = true).
Proof.
  unfold NotYetImplementedError, DeprecatedError, ErrorsPkg.New.
  repeat apply conj.
  - intros H.
    now destruct (newErrorBox_Done _ _ _ _ _ _ _ _ H) as (info & _ & ->).
  - intros H.
    now destruct (newErrorBox_Done _ _ _ _ _ _ _ _ H) as (info & _ & ->).
  - intros Hv H.
    assert (N : newErrorBox Sprintf ToUpper caller nilError
                  ErrInvalidErrorType ErrorsPkg.errorMessages
                  [argError err; argError err] = Done e)
      by (destruct err; try discriminate; exact H).
    now destruct (newErrorBox_Done _ _ _ _ _ _ _ _ N) as (info & _ & ->).
Qed.

Lemma codes_shared_between_packages_witness :
  let fr := mkFrame (bytes "main.go") 3 (bytes "main.main") in
  exists e,
    NotYetImplementedError (fun f _ => f) (fun s => s) fr (bytes "x")
    = Done e /\
    IsTimeoutError e = true.
Proof.
  intros fr. eexists. split; [reflexivity|].
  apply (proj1 (codes_shared_between_packages (fun f _ => f) (fun s => s)
                  fr (bytes "x") nilError _)).
  reflexivity.
Defined.

(** * Properties of the difference of two documents (package [gjp]) *)

Module GjpFacts.

Import Gjp.

Section Documents.

Variables Document Value Failure : Type.
Variable ValueAt : Document -> gostring -> Value.
Variable Equals : Value -> Value -> bool.
Variable Process : Document -> list (gostring * Value) * option Failure.

(** The first pass keeps every visited path in the set and appends the
    paths whose value differs from the value of the second document. *)
Lemma fold_firstProcessor (d : diff Document)
  (visited : list (gostring * Value)) (firstPaths dpaths : list gostring) :
  fold_left (firstProcessor ValueAt Equals d) visited (firstPaths, dpaths)
  = (rev (map fst visited) ++ firstPaths,
     dpaths ++
     map fst (filter (fun pv => negb (Equals (snd pv)
                                        (ValueAt (second d) (fst pv))))
                visited)).
Proof.
  revert firstPaths dpaths.
  induction visited as [|[p v] visited IH]; intros firstPaths dpaths.
  - simpl. now rewrite app_nil_r.
  - cbn [fold_left firstProcessor map rev filter fst snd].
    destruct (negb (Equals v (ValueAt (second d) p))); rewrite IH.
    + cbn [map fst]. now rewrite <- !app_assoc.
    + now rewrite <- app_assoc.
Qed.

(** The second pass appends the paths that are not in the set. *)
Lemma fold_secondProcessor (firstPaths : list gostring)
  (visited : list (gostring * Value)) (dpaths : list gostring) :
  fold_left (secondProcessor firstPaths) visited dpaths
  = dpaths ++ filter (fun p => negb (seen firstPaths p)) (map fst visited).
Proof.
  revert dpaths. induction visited as [|[p v] visited IH]; intros dpaths.
  - simpl. now rewrite app_nil_r.
  - cbn [fold_left secondProcessor map filter fst].
    destruct (seen firstPaths p); rewrite IH; cbn [negb];
      [reflexivity|now rewrite <- app_assoc].
Qed.

Lemma seen_In (firstPaths : list gostring) (p : gostring) :
  seen firstPaths p = true <-> In p firstPaths.
Proof.
  unfold seen. rewrite existsb_exists. split.
  - intros (x & Hx & E). apply streq_true in E. now subst.
  - intros H. exists p. split; [assumption|apply streq_refl].
Qed.

(** [compare] in closed form. *)
Lemma compare_eq (d : diff Document) :
  compare ValueAt Equals Process d =
  let '(visited1, err1) := Process (first d) in
  let reported1 :=
    map fst (filter (fun pv => negb (Equals (snd pv)
                                       (ValueAt (second d) (fst pv))))
               visited1) in
  match err1 with
  | Some e => (mkDiff (first d) (second d) (paths d ++ reported1), Some e)
  | None =>
      let '(visited2, err2) := Process (second d) in
      (mkDiff (first d) (second d)
         ((paths d ++ reported1) ++
          filter (fun p => negb (seen (rev (map fst visited1) ++ []) p))
            (map fst visited2)),
       err2)
  end.
Proof.
  unfold compare. destruct (Process (first d)) as [visited1 err1].
  rewrite fold_firstProcessor. destruct err1 as [e|]; [reflexivity|].
  destruct (Process (second d)) as [visited2 err2].
  now rewrite fold_secondProcessor.
Qed.

End Documents.

End GjpFacts.

Import Gjp GjpFacts.

(** X22. What [compare] reports when both documents are walked to the
    end: a path is among the differences exactly when the first document
    hands it out with a value that is not equal to what the second document
    has at that path, or when the second document hands it out and the
    first one did not. The paths of the first kind come first, each kind
    in the order of its walk; the two documents stay as they are. *)
Theorem compare_reports
  (Document Value Failure : Type)
  (ValueAt : Document -> gostring -> Value)
  (Equals : Value -> Value -> bool)
  (Process : Document -> list (gostring * Value) * option Failure)
  (d : diff Document) (visited1 visited2 : list (gostring * Value))
  (err2 : option Failure) :
  Process (first d) = (visited1, None) ->
  Process (second d) = (visited2, err2) ->
  paths d = [] ->
  let d' := fst (compare ValueAt Equals Process d) in
  Differences d'
  = map fst (filter (fun pv => negb (Equals (snd pv)
                                       (ValueAt (second d) (fst pv))))
               visited1)
    ++ filter (fun p => negb (existsb (streq p) (map fst visited1)))
         (map fst visited2) /\
  (forall p,
      In p (Differences d') <->
      (exists v, In (p, v) visited1
                 /\ Equals v (ValueAt (second d) p) = false) \/
      (In p (map fst visited2) /\ ~ In p (map fst visited1))) /\
  snd (compare ValueAt Equals Process d) = err2 /\
  FirstDocument d' = first d /\ SecondDocument d' = second d.
Proof.
  intros H1 H2 Hp d'. subst d'. rewrite compare_eq, H1, H2, Hp.
  cbn [fst snd Differences FirstDocument SecondDocument paths first second app].
  assert (S : forall p,
             seen (rev (map fst visited1) ++ []) p
             = existsb (streq p) (map fst visited1)).
  { intros p. rewrite app_nil_r. unfold seen.
    apply eq_true_iff_eq. rewrite !existsb_exists.
    split; intros (x & Hx & E); exists x; split; try assumption.
    - now apply in_rev.
    - now apply in_rev in Hx. }
  assert (F : filter (fun p => negb (seen (rev (map fst visited1) ++ []) p))
                (map fst visited2)
              = filter (fun p => negb (existsb (streq p) (map fst visited1)))
                  (map fst visited2)).
  { apply filter_ext. intros p. now rewrite S. }
  rewrite F. repeat apply conj; try reflexivity.
  intros p. rewrite in_app_iff, in_map_iff, filter_In. split.
  - intros [([q v] & <- & Hf)|[Hin Hs]].
    + apply filter_In in Hf as [Hin Hne]. left. exists v.
      split; [assumption|]. now apply negb_true_iff in Hne.
    + right. split; [assumption|]. intros Hin1.
      apply negb_true_iff in Hs.
      assert (existsb (streq p) (map fst visited1) = true) as T.
      { apply existsb_exists. exists p. split; [assumption|apply streq_refl]. }
      congruence.
  - intros [(v & Hin & Hne)|[Hin Hnot]].
    + left. exists (p, v). split; [reflexivity|].
      apply filter_In. split; [assumption|]. cbn [fst snd].
      now rewrite Hne.
    + right. split; [assumption|]. apply negb_true_iff.
      destruct (existsb (streq p) (map fst visited1)) eqn:E; [|reflexivity].
      apply existsb_exists in E as (x & Hx & Ex).
      apply streq_true in Ex. subst. contradiction.
Qed.

Lemma compare_reports_witness :
  let one := [(bytes "a", 1); (bytes "b", 2)] in
  let two := [(bytes "b", 3); (bytes "c", 4); (bytes "a", 1)] in
  Differences
    (fst (compare GjpExample.ValueAt GjpExample.Equals GjpExample.Process
            (mkDiff one two [])))
  = [bytes "b"; bytes "c"].
Proof.
  intros one two.
  destruct (compare_reports _ _ _ GjpExample.ValueAt GjpExample.Equals
              GjpExample.Process (mkDiff one two [])
              _ _ None eq_refl eq_refl eq_refl) as (H & _).
  rewrite H. reflexivity.
Defined.

Lemma NoDup_map_filter {A B : Type} (f : A -> B) (p : A -> bool)
  (l : list A) : NoDup (map f l) -> NoDup (map f (filter p l)).
Proof.
  induction l as [|x l IH]; simpl; intros H; [constructor|].
  inversion H as [|? ? Hx Hl]; subst.
  destruct (p x); [|now apply IH]. simpl. constructor; [|now apply IH].
  intros Hin. apply Hx. apply in_map_iff in Hin as (y & <- & Hy).
  apply in_map. now apply filter_In in Hy.
Qed.

(** X23. No path is reported twice, when neither document hands out a
    path twice: a path of both documents is left to the first pass. *)
Theorem compare_reports_once
  (Document Value Failure : Type)
  (ValueAt : Document -> gostring -> Value)
  (Equals : Value -> Value -> bool)
  (Process : Document -> list (gostring * Value) * option Failure)
  (d : diff Document) (visited1 visited2 : list (gostring * Value))
  (err2 : option Failure) :
  Process (first d) = (visited1, None) ->
  Process (second d) = (visited2, err2) ->
  paths d = [] ->
  NoDup (map fst visited1) -> NoDup (map fst visited2) ->
  NoDup (Differences (fst (compare ValueAt Equals Process d))).
Proof.
  intros H1 H2 Hp N1 N2.
  rewrite compare_eq, H1, H2, Hp.
  cbn [fst Differences paths app].
  apply NoDup_app.
  - now apply NoDup_map_filter.
  - now apply NoDup_filter.
  - intros p Hin1 Hin2.
    apply in_map_iff in Hin1 as ([q v] & <- & Hf).
    apply filter_In in Hf as [Hq _].
    apply filter_In in Hin2 as [_ Hs].
    apply negb_true_iff in Hs.
    assert (T : seen (rev (map fst visited1) ++ []) q = true).
    { apply seen_In. rewrite app_nil_r. apply -> in_rev.
      now apply (in_map fst _ (q, v)). }
    cbn [fst] in Hs. congruence.
Qed.

Lemma compare_reports_once_witness :
  let one := [(bytes "a", 1); (bytes "b", 2)] in
  let two := [(bytes "b", 3); (bytes "c", 4); (bytes "a", 1)] in
  NoDup (Differences
           (fst (compare GjpExample.ValueAt GjpExample.Equals
                   GjpExample.Process (mkDiff one two [])))).
Proof.
  intros one two.
  apply (compare_reports_once _ _ _ GjpExample.ValueAt GjpExample.Equals
           GjpExample.Process (mkDiff one two []) _ _ None
           eq_refl eq_refl eq_refl).
  - repeat constructor; simpl; intuition discriminate.
  - repeat constructor; simpl; intuition discriminate.
Defined.

(** X24. Failures: [Compare] returns a difference only when both texts
    parse and both documents are walked without error, and it is the
    difference of the two parsed documents. When the walk of the first
    document fails, [compare] returns that error and has reported only
    paths the first document handed out. *)
Theorem Compare_needs_both
  (Document Value Failure : Type)
  (ValueAt : Document -> gostring -> Value)
  (Equals : Value -> Value -> bool)
  (Process : Document -> list (gostring * Value) * option Failure)
  (Parse : gostring -> gostring -> Document + Failure) :
  (forall firstDoc secondDoc separator d,
      Compare ValueAt Equals Process Parse firstDoc secondDoc separator
      = inl d ->
      Parse firstDoc separator = inl (first d) /\
      Parse secondDoc separator = inl (second d) /\
      snd (Process (first d)) = None /\
      snd (Process (second d)) = None /\
      d = fst (compare ValueAt Equals Process
                 (mkDiff (first d) (second d) []))) /\
  (forall d visited1 e,
      Process (first d) = (visited1, Some e) ->
      paths d = [] ->
      snd (compare ValueAt Equals Process d) = Some e /\
      forall p, In p (Differences (fst (compare ValueAt Equals Process d))) ->
                In p (map fst visited1)).
Proof.
  split.
  - intros a b sep d. unfold Compare.
    destruct (Parse a sep) as [fd|e1]; [|discriminate].
    destruct (Parse b sep) as [sd|e2]; [|discriminate].
    destruct (compare ValueAt Equals Process (mkDiff fd sd []))
      as [d' [e|]] eqn:C; [discriminate|].
    intros E. injection E as <-.
    pose proof C as C'. rewrite compare_eq in C'. cbn [first second paths] in C'.
    destruct (Process fd) as [v1 [e1|]] eqn:P1; [discriminate|].
    destruct (Process sd) as [v2 err2] eqn:P2.
    injection C' as Hd He. subst d' err2.
    cbn [first second]. rewrite P1, P2, C. repeat split.
  - intros d visited1 e H Hp. rewrite compare_eq, H, Hp.
    cbn [fst snd Differences paths app]. split; [reflexivity|].
    intros p Hin. apply in_map_iff in Hin as (pv & <- & Hf).
    apply in_map. now apply filter_In in Hf.
Qed.

Lemma Compare_needs_both_witness :
  exists d,
    Compare GjpExample.ValueAt GjpExample.Equals GjpExample.Process
      GjpExample.Parse (bytes "x") (bytes "y") (bytes "/") = inl d /\
    GjpExample.Parse (bytes "x") (bytes "/") = inl (first d) /\
    Differences d = [bytes "x"; bytes "y"].
Proof.
  eexists. split; [reflexivity|].
  split; [|reflexivity].
  apply (proj1 (Compare_needs_both _ _ _ GjpExample.ValueAt
                  GjpExample.Equals GjpExample.Process GjpExample.Parse)
           (bytes "x") (bytes "y") (bytes "/")).
  reflexivity.
Defined.

(** X25. A document does not differ from itself, provided it is walked to
    the end and every value it hands out is equal to the value it has at
    that path. *)
Theorem compare_with_itself
  (Document Value Failure : Type)
  (ValueAt : Document -> gostring -> Value)
  (Equals : Value -> Value -> bool)
  (Process : Document -> list (gostring * Value) * option Failure)
  (doc : Document) :
  snd (Process doc) = None ->
  (forall p v, In (p, v) (fst (Process doc)) ->
               Equals v (ValueAt doc p) = true) ->
  compare ValueAt Equals Process (mkDiff doc doc [])
  = (mkDiff doc doc [], None).
Proof.
  intros Hend Hcoh. rewrite compare_eq. cbn [first second paths app].
  destruct (Process doc) as [visited err]. cbn [fst snd] in *. subst err.
  assert (A : filter (fun pv => negb (Equals (snd pv) (ValueAt doc (fst pv))))
                visited = []).
  { induction visited as [|[p v] l IH]; [reflexivity|].
    cbn [filter fst snd]. rewrite (Hcoh p v) by now left.
    cbn [negb]. apply IH. intros q w Hin. apply Hcoh. now right. }
  assert (B : filter (fun p => negb (seen (rev (map fst visited) ++ []) p))
                (map fst visited) = []).
  { assert (G : forall l, (forall p, In p l -> In p (map fst visited)) ->
                  filter (fun p => negb (seen (rev (map fst visited) ++ []) p))
                    l = []).
    { induction l as [|p l IH]; intros Hl; [reflexivity|].
      cbn [filter].
      assert (T : seen (rev (map fst visited) ++ []) p = true).
      { apply seen_In. rewrite app_nil_r. apply -> in_rev.
        apply Hl. now left. }
      rewrite T. cbn [negb]. apply IH. intros q Hq. apply Hl. now right. }
    apply G. auto. }
  now rewrite A, B.
Qed.

Lemma compare_with_itself_witness :
  let doc := [(bytes "a", 1); (bytes "b/c", 2)] in
  compare GjpExample.ValueAt GjpExample.Equals GjpExample.Process
    (mkDiff doc doc [])
  = (mkDiff doc doc [], None).
Proof.
  intros doc.
  apply (compare_with_itself _ _ _ GjpExample.ValueAt GjpExample.Equals
           GjpExample.Process doc).
  - reflexivity.
  - intros p v [E|[E|[]]]; injection E as <- <-; reflexivity.
Defined.
